(** * Per-identity rate limiters: sliding window log and throttling

    Shallow embedding of [SlidingWindowRateLimiter] (task_1.py) and
    [ThrottlingRateLimiter] (task_2.py).

    Modelling choices.
    - [self.user_messages : Dict[str, Deque[float]]] is a [gmap string (list Z)],
      the front of the deque being the head of the list; [popleft] removes the
      head and [append] adds at the end.  A deque is only ever reached through
      its own dictionary entry, so updating the entry models the in-place
      mutation.
    - [self.user_last_message : Dict[str, float]] is a [gmap string Z].
    - In the modules [SlidingWindowRateLimiter] and [ThrottlingRateLimiter]
      timestamps and durations are exact numbers ([Z], ticks of the clock);
      rounding of floating-point subtraction is not modelled there.  The
      module [ThrottlingRateLimiterFloat] is task_2.py again with Python's
      floats as binary64 numbers and their rounded subtraction.
    - Every call of [time.time()] is an explicit argument of the method that
      makes it, in the order of the calls.  [ThrottlingRateLimiter.record_message]
      reads the clock twice (once inside [can_send_message], once for the value
      it stores) and therefore takes two readings.
    - A method returns the object after the call together with its result. *)

From stdpp Require Import gmap strings list fin_maps sorting pretty.
From Stdlib Require Import PrimFloat FloatOps SpecFloat QArith.

Local Open Scope Z_scope.

(** ** task_1.py: SlidingWindowRateLimiter *)

Module SlidingWindowRateLimiter.

Record t : Type := mk {
  window_size : Z;
  max_requests : Z;
  user_messages : gmap string (list Z)
}.

(** [__init__] *)
Definition init (window_size max_requests : Z) : t :=
  mk window_size max_requests ∅.

Definition set_user_messages (self : t) (m : gmap string (list Z)) : t :=
  mk (window_size self) (max_requests self) m.

(** [while timestamps and timestamps[0] < cutoff: timestamps.popleft()] *)
Fixpoint popleft_while (cutoff : Z) (timestamps : list Z) : list Z :=
  match timestamps with
  | [] => []
  | t0 :: rest =>
      if t0 <? cutoff then popleft_while cutoff rest else timestamps
  end.

Definition _cleanup_window (self : t) (user_id : string) (current_time : Z) : t :=
  match user_messages self !! user_id with
  | None => self
  | Some timestamps =>
      let cutoff := current_time - window_size self in
      let timestamps := popleft_while cutoff timestamps in
      match timestamps with
      | [] => set_user_messages self (delete user_id (user_messages self))
      | _ :: _ =>
          set_user_messages self (<[user_id := timestamps]> (user_messages self))
      end
  end.

Definition can_send_message (self : t) (user_id : string) (current_time : Z)
  : t * bool :=
  let self := _cleanup_window self user_id current_time in
  match user_messages self !! user_id with
  | None => (self, true)
  | Some timestamps =>
      (self, Z.of_nat (length timestamps) <? max_requests self)
  end.

Definition record_message (self : t) (user_id : string) (current_time : Z)
  : t * bool :=
  let self := _cleanup_window self user_id current_time in
  let self :=
    match user_messages self !! user_id with
    | None => set_user_messages self (<[user_id := []]> (user_messages self))
    | Some _ => self
    end in
  let timestamps := default [] (user_messages self !! user_id) in
  if Z.of_nat (length timestamps) <? max_requests self then
    (set_user_messages self
       (<[user_id := timestamps ++ [current_time]]> (user_messages self)),
     true)
  else (self, false).

(** The result is [None] where [timestamps[0]] would raise [IndexError]. *)
Definition time_until_next_allowed (self : t) (user_id : string)
    (current_time : Z) : t * option Z :=
  let self := _cleanup_window self user_id current_time in
  match user_messages self !! user_id with
  | None => (self, Some 0)
  | Some timestamps =>
      if Z.of_nat (length timestamps) <? max_requests self then (self, Some 0)
      else
        match timestamps with
        | [] => (self, None)
        | earliest :: _ =>
            let allow_time := earliest + window_size self in
            let wait := allow_time - current_time in
            (self, Some (Z.max wait 0))
        end
  end.

(** A caller's view: one call of a public method at a clock reading. *)
Inductive call : Type :=
| CanSend (user_id : string) (now : Z)
| Record_ (user_id : string) (now : Z)
| TimeUntil (user_id : string) (now : Z).

Inductive result : Type :=
| RBool (b : bool)
| RWait (w : option Z).

Definition call_user (c : call) : string :=
  match c with CanSend u _ | Record_ u _ | TimeUntil u _ => u end.

Definition call_time (c : call) : Z :=
  match c with CanSend _ n | Record_ _ n | TimeUntil _ n => n end.

Definition step (self : t) (c : call) : t * result :=
  match c with
  | CanSend u n => let '(s, b) := can_send_message self u n in (s, RBool b)
  | Record_ u n => let '(s, b) := record_message self u n in (s, RBool b)
  | TimeUntil u n =>
      let '(s, w) := time_until_next_allowed self u n in (s, RWait w)
  end.

Definition run (self : t) (calls : list call) : t :=
  fold_left (fun s c => fst (step s c)) calls self.

(** The clock never goes back: every call is made at or after [now], and at
    or after the call before it. *)
Fixpoint chronological (now : Z) (calls : list call) : Prop :=
  match calls with
  | [] => True
  | c :: rest => now <= call_time c /\ chronological (call_time c) rest
  end.

(** Timestamps stored for an identity (none when it has no entry). *)
Definition stored (self : t) (user_id : string) : list Z :=
  default [] (user_messages self !! user_id).

(** Number of timestamps of [l] in the trailing window [[u - w, u]]. *)
Definition count_in_window (w u : Z) (l : list Z) : nat :=
  length (filter (fun x => u - w <= x /\ x <= u) l).

(** Clock reading after the calls. *)
Definition clock_after (now : Z) (calls : list call) : Z :=
  fold_left (fun _ c => call_time c) calls now.

(** The timestamp recorded by the call [c] when it is an accepted
    [record_message] for [user_id]. *)
Definition accepted_by (self : t) (user_id : string) (c : call) : list Z :=
  match c with
  | Record_ u now =>
      if snd (record_message self u now)
      then if decide (u = user_id) then [now] else []
      else []
  | _ => []
  end.

(** The timestamps of all accepted [record_message] calls made for
    [user_id], oldest first, whether still stored or already pruned. *)
Fixpoint accepted (self : t) (user_id : string) (calls : list call)
  : list Z :=
  match calls with
  | [] => []
  | c :: rest =>
      accepted_by self user_id c ++ accepted (fst (step self c)) user_id rest
  end.

(** How the deque [kept] of an identity relates to the timestamps [log]
    accepted for it so far, at clock reading [now]: the deque is the end of
    the log, what is missing from it is older than the window, nothing is
    from the future, and no trailing window holds more than [m] accepted
    timestamps. *)
Definition log_inv (w m now : Z) (log kept : list Z) : Prop :=
  (∃ dropped, log = dropped ++ kept ∧ Forall (fun e => e < now - w) dropped)
  ∧ Forall (fun e => e <= now) log
  ∧ Z.of_nat (length kept) <= m
  ∧ ∀ u, Z.of_nat (count_in_window w u log) <= m.

(** What pruning at [cutoff] leaves of a dictionary entry: the suffix that
    starts at the first timestamp not below [cutoff], and no entry at all
    when that suffix is empty. *)
Definition pruned_entry (cutoff : Z) (entry : option (list Z))
  : option (list Z) :=
  match entry with
  | None => None
  | Some timestamps =>
      match popleft_while cutoff timestamps with
      | [] => None
      | kept => Some kept
      end
  end.

(** The results of the calls made for [user_id], in order, when all of
    [calls] are run from [self]. *)
Fixpoint observe (self : t) (user_id : string) (calls : list call)
  : list result :=
  match calls with
  | [] => []
  | c :: rest =>
      let '(self', r) := step self c in
      if decide (call_user c = user_id)
      then r :: observe self' user_id rest
      else observe self' user_id rest
  end.

(** No dictionary entry holds an empty deque. *)
Definition no_empty_entry (self : t) : Prop :=
  forall user_id, user_messages self !! user_id ≠ Some [].

(** Two limiters with the same configuration and the same entry for
    [user_id]. *)
Definition agree_on (user_id : string) (a b : t) : Prop :=
  window_size a = window_size b
  ∧ max_requests a = max_requests b
  ∧ user_messages a !! user_id = user_messages b !! user_id.

(** Every dictionary entry holds an empty deque. *)
Definition only_empty_entries (self : t) : Prop :=
  forall user_id l, user_messages self !! user_id = Some l → l = [].

(** No deque is longer than the cap. *)
Definition within_cap (self : t) : Prop :=
  forall user_id l,
    user_messages self !! user_id = Some l →
    Z.of_nat (length l) <= max_requests self.

(** Every deque is in time order and holds no timestamp later than the clock
    reading [now]. *)
Definition timeline (now : Z) (self : t) : Prop :=
  forall user_id l,
    user_messages self !! user_id = Some l →
    StronglySorted Z.le l ∧ Forall (fun e => e <= now) l.

(** *** [demo_scenario]

    The clock is the function [clock] from the number of earlier calls of
    [time.time()] to the reading; [time.sleep] and [random.uniform] only
    decide what the later readings are.  What is printed for a message is a
    [row]: its number, its user and either the check mark or the cross with
    the waiting time.  The headings and the colours are left out, and the
    waiting time is kept exact instead of being rounded by [%.1f]. *)
Inductive mark : Type :=
| Sent
| Refused (wait_time : Z).

Record row : Type := mk_row {
  row_message : Z;
  row_user : Z;
  row_mark : mark
}.

(** The body of the two [for] loops; [None] where [IndexError] would end the
    scenario. *)
Definition demo_round (limiter : t) (clock : nat → Z) (reads : nat)
    (message_id : Z) : option (t * row) :=
  let user_id := message_id `mod` 5 + 1 in
  let '(limiter, can_send) :=
    record_message limiter (pretty user_id) (clock reads) in
  let '(limiter, wait) :=
    time_until_next_allowed limiter (pretty user_id) (clock (S reads)) in
  match wait with
  | None => None
  | Some wait_time =>
      Some (limiter,
            mk_row message_id user_id
              (if can_send then Sent else Refused wait_time))
  end.

(** A [for] loop over [message_ids], started after [reads] clock readings. *)
Fixpoint demo_series (limiter : t) (clock : nat → Z) (reads : nat)
    (message_ids : list Z) : option (t * nat * list row) :=
  match message_ids with
  | [] => Some (limiter, reads, [])
  | message_id :: rest =>
      match demo_round limiter clock reads message_id with
      | None => None
      | Some (limiter, r) =>
          match demo_series limiter clock (S (S reads)) rest with
          | None => None
          | Some (limiter, reads, rows) => Some (limiter, reads, r :: rows)
          end
      end
  end.

Definition demo_scenario (clock : nat → Z) : option (list row) :=
  let limiter := init 10 1 in
  match demo_series limiter clock 0 (seqZ 1 10) with
  | None => None
  | Some (limiter, reads, rows1) =>
      match demo_series limiter clock reads (seqZ 11 10) with
      | None => None
      | Some (_, _, rows2) => Some (rows1 ++ rows2)
      end
  end.

End SlidingWindowRateLimiter.

(** ** task_2.py: ThrottlingRateLimiter *)

Module ThrottlingRateLimiter.

Record t : Type := mk {
  min_interval : Z;
  user_last_message : gmap string Z
}.

(** [__init__] *)
Definition init (min_interval : Z) : t := mk min_interval ∅.

Definition set_user_last_message (self : t) (m : gmap string Z) : t :=
  mk (min_interval self) m.

Definition can_send_message (self : t) (user_id : string) (current_time : Z)
  : t * bool :=
  match user_last_message self !! user_id with
  | None => (self, true)
  | Some last_time =>
      (self, min_interval self <=? current_time - last_time)
  end.

(** [check_time] is the clock reading made inside [can_send_message],
    [store_time] the later reading that is stored. *)
Definition record_message (self : t) (user_id : string)
    (check_time store_time : Z) : t * bool :=
  let '(self, ok) := can_send_message self user_id check_time in
  if ok then
    (set_user_last_message self
       (<[user_id := store_time]> (user_last_message self)),
     true)
  else (self, false).

Definition time_until_next_allowed (self : t) (user_id : string)
    (current_time : Z) : t * Z :=
  match user_last_message self !! user_id with
  | None => (self, 0)
  | Some last_time =>
      let diff := current_time - last_time in
      let wait := min_interval self - diff in
      (self, Z.max wait 0)
  end.

Inductive call : Type :=
| CanSend (user_id : string) (now : Z)
| Record_ (user_id : string) (check_time store_time : Z)
| TimeUntil (user_id : string) (now : Z).

Inductive result : Type :=
| RBool (b : bool)
| RWait (w : Z).

Definition call_user (c : call) : string :=
  match c with CanSend u _ | Record_ u _ _ | TimeUntil u _ => u end.

(** First and last clock reading of a call. *)
Definition call_start (c : call) : Z :=
  match c with CanSend _ n | Record_ _ n _ | TimeUntil _ n => n end.

Definition call_end (c : call) : Z :=
  match c with CanSend _ n | Record_ _ _ n | TimeUntil _ n => n end.

Definition step (self : t) (c : call) : t * result :=
  match c with
  | CanSend u n => let '(s, b) := can_send_message self u n in (s, RBool b)
  | Record_ u n1 n2 =>
      let '(s, b) := record_message self u n1 n2 in (s, RBool b)
  | TimeUntil u n =>
      let '(s, w) := time_until_next_allowed self u n in (s, RWait w)
  end.

Definition run (self : t) (calls : list call) : t :=
  fold_left (fun s c => fst (step s c)) calls self.

(** The clock readings of the calls, in order, never decrease and start at
    or after [now]. *)
Fixpoint chronological (now : Z) (calls : list call) : Prop :=
  match calls with
  | [] => True
  | c :: rest =>
      now <= call_start c /\ call_start c <= call_end c
      /\ chronological (call_end c) rest
  end.

(** Clock reading after the calls. *)
Definition clock_after (now : Z) (calls : list call) : Z :=
  fold_left (fun _ c => call_end c) calls now.

(** The timestamps stored by the accepted [record_message] calls made for
    [user_id], oldest first. *)
Fixpoint accepted (self : t) (user_id : string) (calls : list call) : list Z :=
  match calls with
  | [] => []
  | c :: rest =>
      let '(self', r) := step self c in
      match c, r with
      | Record_ u _ store_time, RBool true =>
          if decide (u = user_id)
          then store_time :: accepted self' user_id rest
          else accepted self' user_id rest
      | _, _ => accepted self' user_id rest
      end
  end.

(** The results of the calls made for [user_id], in order, when all of
    [calls] are run from [self]. *)
Fixpoint observe (self : t) (user_id : string) (calls : list call)
  : list result :=
  match calls with
  | [] => []
  | c :: rest =>
      let '(self', r) := step self c in
      if decide (call_user c = user_id)
      then r :: observe self' user_id rest
      else observe self' user_id rest
  end.

(** Every two neighbours of [l] are at least [gap] apart. *)
Fixpoint spaced (gap : Z) (l : list Z) : Prop :=
  match l with
  | a :: (b :: _) as rest => gap <= b - a /\ spaced gap rest
  | _ => True
  end.

(** Two limiters with the same configuration and the same entry for
    [user_id]. *)
Definition agree_on (user_id : string) (a b : t) : Prop :=
  min_interval a = min_interval b
  ∧ user_last_message a !! user_id = user_last_message b !! user_id.

(** No stored timestamp is later than the clock reading [now]. *)
Definition not_after (now : Z) (self : t) : Prop :=
  forall user_id last_time,
    user_last_message self !! user_id = Some last_time → last_time <= now.

(** [l], preceded by the timestamp [prev] when there is one, is spaced. *)
Definition spaced_after (gap : Z) (prev : option Z) (l : list Z) : Prop :=
  match prev with
  | None => spaced gap l
  | Some a => spaced gap (a :: l)
  end.

End ThrottlingRateLimiter.

(** ** task_2.py with Python's floats: ThrottlingRateLimiter on binary64

    [time.time()] returns a float and [min_interval] is annotated [float]; a
    Python float is an IEEE 754 binary64 number.  Here the timestamps are
    Rocq's primitive floats, [current_time - last_time] is the rounded
    binary64 subtraction and [>=] the binary64 comparison, which is false when
    an argument is not a number. *)

Module ThrottlingRateLimiterFloat.

Record t : Type := mk {
  min_interval : float;
  user_last_message : gmap string float
}.

(** [__init__] *)
Definition init (min_interval : float) : t := mk min_interval ∅.

Definition set_user_last_message (self : t) (m : gmap string float) : t :=
  mk (min_interval self) m.

Definition can_send_message (self : t) (user_id : string)
    (current_time : float) : t * bool :=
  match user_last_message self !! user_id with
  | None => (self, true)
  | Some last_time =>
      (self, (min_interval self <=? current_time - last_time)%float)
  end.

(** [check_time] is the clock reading made inside [can_send_message],
    [store_time] the later reading that is stored. *)
Definition record_message (self : t) (user_id : string)
    (check_time store_time : float) : t * bool :=
  let '(self, ok) := can_send_message self user_id check_time in
  if ok then
    (set_user_last_message self
       (<[user_id := store_time]> (user_last_message self)),
     true)
  else (self, false).

(** Python's [max(a, b)] of two arguments: [b] when [b > a], else [a]. *)
Definition py_max (a b : float) : float := if (a <? b)%float then b else a.

Definition time_until_next_allowed (self : t) (user_id : string)
    (current_time : float) : t * float :=
  match user_last_message self !! user_id with
  | None => (self, 0%float)
  | Some last_time =>
      let diff := (current_time - last_time)%float in
      let wait := (min_interval self - diff)%float in
      (self, py_max wait 0)
  end.

Inductive call : Type :=
| CanSend (user_id : string) (now : float)
| Record_ (user_id : string) (check_time store_time : float)
| TimeUntil (user_id : string) (now : float).

Inductive result : Type :=
| RBool (b : bool)
| RWait (w : float).

Definition call_user (c : call) : string :=
  match c with CanSend u _ | Record_ u _ _ | TimeUntil u _ => u end.

Definition step (self : t) (c : call) : t * result :=
  match c with
  | CanSend u n => let '(s, b) := can_send_message self u n in (s, RBool b)
  | Record_ u n1 n2 =>
      let '(s, b) := record_message self u n1 n2 in (s, RBool b)
  | TimeUntil u n =>
      let '(s, w) := time_until_next_allowed self u n in (s, RWait w)
  end.

Definition run (self : t) (calls : list call) : t :=
  fold_left (fun s c => fst (step s c)) calls self.




(** The exact value of a binary64 number that is finite, as a rational. *)
Definition exact (x : float) : option Q :=
  match Prim2SF x with
  | S754_zero _ => Some 0%Q
  | S754_finite s m e =>
      Some (inject_Z (if s then Z.neg m else Z.pos m) * Qpower 2 e)%Q
  | _ => None
  end.

(** *** [demo_scenario]

    [clock] gives the reading of each call of [time.time()] from the number
    of earlier calls; [time.sleep] and [random.uniform] only decide what the
    later readings are.  [record_message] reads the clock once when it
    refuses and twice when it accepts, and [time_until_next_allowed] reads it
    only for an identity that has an entry.  What is printed for a message is
    a [row]: its number, its user and either the check mark or the cross with
    the waiting time.  The headings and the colours are left out, and the
    waiting time is kept as the float it is instead of being rounded by
    [%.1f]. *)
Inductive mark : Type :=
| Sent
| Refused (wait_time : float).

Record row : Type := mk_row {
  row_message : Z;
  row_user : Z;
  row_mark : mark
}.

(** The body of the two [for] loops, with the number of clock readings made
    so far. *)
Definition demo_round (limiter : t) (clock : nat → float) (reads : nat)
    (message_id : Z) : t * nat * row :=
  let user_id := message_id `mod` 5 + 1 in
  let '(limiter, result) :=
    record_message limiter (pretty user_id) (clock reads) (clock (S reads)) in
  let reads := if result then S (S reads) else S reads in
  let '(limiter, wait_time) :=
    time_until_next_allowed limiter (pretty user_id) (clock reads) in
  let reads :=
    match user_last_message limiter !! pretty user_id with
    | None => reads
    | Some _ => S reads
    end in
  (limiter, reads,
   mk_row message_id user_id (if result then Sent else Refused wait_time)).

Fixpoint demo_series (limiter : t) (clock : nat → float) (reads : nat)
    (message_ids : list Z) : t * nat * list row :=
  match message_ids with
  | [] => (limiter, reads, [])
  | message_id :: rest =>
      let '(limiter, reads, r) := demo_round limiter clock reads message_id in
      let '(limiter, reads, rows) := demo_series limiter clock reads rest in
      (limiter, reads, r :: rows)
  end.

Definition demo_scenario (clock : nat → float) : list row :=
  let limiter := init 10 in
  let '(limiter, reads, rows1) := demo_series limiter clock 0 (seqZ 1 10) in
  let '(_, _, rows2) := demo_series limiter clock reads (seqZ 11 10) in
  rows1 ++ rows2.


End ThrottlingRateLimiterFloat.

Module SW := SlidingWindowRateLimiter.
Module TH := ThrottlingRateLimiter.
Module THF := ThrottlingRateLimiterFloat.

(** ** Pruning of one deque *)

Section Popleft.

Variable cutoff : Z.

Lemma popleft_while_head (l : list Z) (x : Z) (rest : list Z) :
  SW.popleft_while cutoff l = x :: rest → cutoff <= x.
Proof.
  induction l as [|a l IH]; simpl; [discriminate|].
  destruct (Z.ltb_spec a cutoff) as [Hlt|Hge]; [exact IH|].
  intros [= <- _]. exact Hge.
Qed.

Lemma popleft_while_fixed (l : list Z) :
  match l with [] => True | x :: _ => cutoff <= x end →
  SW.popleft_while cutoff l = l.
Proof.
  destruct l as [|x l]; simpl; [reflexivity|].
  intros Hx. destruct (Z.ltb_spec x cutoff); [lia|reflexivity].
Qed.

Lemma popleft_while_idem (l : list Z) :
  SW.popleft_while cutoff (SW.popleft_while cutoff l)
  = SW.popleft_while cutoff l.
Proof.
  apply popleft_while_fixed.
  destruct (SW.popleft_while cutoff l) as [|x rest] eqn:E; [exact I|].
  exact (popleft_while_head _ _ _ E).
Qed.

Lemma popleft_while_suffix (l : list Z) :
  SW.popleft_while cutoff l `suffix_of` l.
Proof.
  induction l as [|a l IH]; simpl; [reflexivity|].
  destruct (a <? cutoff); [|reflexivity].
  by apply suffix_cons_r.
Qed.

Lemma popleft_while_length (l : list Z) :
  (length (SW.popleft_while cutoff l) <= length l)%nat.
Proof. apply suffix_length, popleft_while_suffix. Qed.

Lemma pruned_entry_idem (entry : option (list Z)) :
  SW.pruned_entry cutoff (SW.pruned_entry cutoff entry)
  = SW.pruned_entry cutoff entry.
Proof.
  destruct entry as [l|]; simpl; [|reflexivity].
  destruct (SW.popleft_while cutoff l) as [|x rest] eqn:E;
    [reflexivity|].
  unfold SW.pruned_entry.
  rewrite (popleft_while_fixed (x :: rest)); [reflexivity|].
  exact (popleft_while_head _ _ _ E).
Qed.

Lemma pruned_entry_not_empty (entry : option (list Z)) :
  SW.pruned_entry cutoff entry ≠ Some [].
Proof.
  destruct entry as [l|]; simpl; [|discriminate].
  destruct (SW.popleft_while cutoff l); discriminate.
Qed.

End Popleft.

(** ** [_cleanup_window] *)

Section Cleanup.

Variables (self : SW.t) (user_id : string) (now : Z).

Lemma cleanup_window_size :
  SW.window_size (SW._cleanup_window self user_id now) = SW.window_size self.
Proof.
  unfold SW._cleanup_window.
  destruct (SW.user_messages self !! user_id) as [l|]; [|reflexivity].
  cbv zeta. destruct (SW.popleft_while _ l); reflexivity.
Qed.

Lemma cleanup_max_requests :
  SW.max_requests (SW._cleanup_window self user_id now) = SW.max_requests self.
Proof.
  unfold SW._cleanup_window.
  destruct (SW.user_messages self !! user_id) as [l|]; [|reflexivity].
  cbv zeta. destruct (SW.popleft_while _ l); reflexivity.
Qed.

Lemma cleanup_lookup :
  SW.user_messages (SW._cleanup_window self user_id now) !! user_id
  = SW.pruned_entry (now - SW.window_size self)
      (SW.user_messages self !! user_id).
Proof.
  unfold SW._cleanup_window, SW.pruned_entry.
  destruct (SW.user_messages self !! user_id) as [l|] eqn:E; [|exact E].
  cbv zeta. destruct (SW.popleft_while _ l) as [|x rest]; simpl.
  - apply lookup_delete_eq.
  - apply lookup_insert_eq.
Qed.

Lemma cleanup_lookup_ne (other : string) :
  user_id ≠ other →
  SW.user_messages (SW._cleanup_window self user_id now) !! other
  = SW.user_messages self !! other.
Proof.
  intros Hne. unfold SW._cleanup_window.
  destruct (SW.user_messages self !! user_id) as [l|]; [|reflexivity].
  cbv zeta. destruct (SW.popleft_while _ l) as [|x rest]; simpl.
  - by apply lookup_delete_ne.
  - by apply lookup_insert_ne.
Qed.

End Cleanup.

Lemma sw_eq (a b : SW.t) :
  SW.window_size a = SW.window_size b →
  SW.max_requests a = SW.max_requests b →
  SW.user_messages a = SW.user_messages b →
  a = b.
Proof. destruct a, b; simpl; congruence. Qed.

Lemma cleanup_lookup_any (self : SW.t) (user_id other : string) (now : Z) :
  SW.user_messages (SW._cleanup_window self user_id now) !! other
  = if decide (user_id = other)
    then SW.pruned_entry (now - SW.window_size self)
           (SW.user_messages self !! other)
    else SW.user_messages self !! other.
Proof.
  case_decide as H.
  - subst other. apply cleanup_lookup.
  - by apply cleanup_lookup_ne.
Qed.

Lemma cleanup_idem (self : SW.t) (user_id : string) (now : Z) :
  SW._cleanup_window (SW._cleanup_window self user_id now) user_id now
  = SW._cleanup_window self user_id now.
Proof.
  apply sw_eq.
  - by rewrite !cleanup_window_size.
  - by rewrite !cleanup_max_requests.
  - apply map_eq. intros k. rewrite !cleanup_lookup_any, cleanup_window_size.
    case_decide; [|reflexivity]. apply pruned_entry_idem.
Qed.

(** Without an entry, or with an earliest timestamp inside the window,
    [_cleanup_window] changes nothing. *)
Lemma cleanup_unchanged (self : SW.t) (user_id : string) (now : Z) :
  match SW.user_messages self !! user_id with
  | None => True
  | Some [] => False
  | Some (earliest :: _) => now - SW.window_size self <= earliest
  end →
  SW._cleanup_window self user_id now = self.
Proof.
  intros H. apply sw_eq.
  - apply cleanup_window_size.
  - apply cleanup_max_requests.
  - apply map_eq. intros k. rewrite cleanup_lookup_any.
    case_decide as Hk; [subst k|reflexivity].
    destruct (SW.user_messages self !! user_id) as [[|x l]|]; simpl;
      [contradiction| |reflexivity].
    destruct (Z.ltb_spec x (now - SW.window_size self)); [lia|reflexivity].
Qed.

(** ** The public methods of the sliding window limiter, entry by entry *)

Section SlidingWindowMethods.

Variables (self : SW.t) (user_id : string) (now : Z).

(** What [_cleanup_window] leaves of the entry of [user_id]. *)
Local Abbreviation kept :=
  (SW.pruned_entry (now - SW.window_size self)
     (SW.user_messages self !! user_id)).

Lemma can_send_message_state :
  fst (SW.can_send_message self user_id now)
  = SW._cleanup_window self user_id now.
Proof.
  unfold SW.can_send_message.
  destruct (SW.user_messages (SW._cleanup_window self user_id now) !! user_id);
    reflexivity.
Qed.

Lemma can_send_message_result :
  snd (SW.can_send_message self user_id now)
  = match kept with
    | None => true
    | Some l => Z.of_nat (length l) <? SW.max_requests self
    end.
Proof.
  unfold SW.can_send_message. cbv zeta.
  rewrite cleanup_lookup, cleanup_max_requests.
  destruct kept; reflexivity.
Qed.

Lemma time_until_next_allowed_state :
  fst (SW.time_until_next_allowed self user_id now)
  = SW._cleanup_window self user_id now.
Proof.
  unfold SW.time_until_next_allowed. cbv zeta.
  destruct (SW.user_messages (SW._cleanup_window self user_id now) !! user_id)
    as [l|]; [|reflexivity].
  destruct (_ <? _); [reflexivity|]. destruct l; reflexivity.
Qed.

Lemma time_until_next_allowed_result :
  snd (SW.time_until_next_allowed self user_id now)
  = match kept with
    | None => Some 0
    | Some l =>
        if Z.of_nat (length l) <? SW.max_requests self then Some 0
        else match l with
             | [] => None
             | earliest :: _ =>
                 Some (Z.max (earliest + SW.window_size self - now) 0)
             end
    end.
Proof.
  unfold SW.time_until_next_allowed. cbv zeta.
  rewrite cleanup_lookup, cleanup_max_requests, cleanup_window_size.
  destruct kept as [l|]; [|reflexivity].
  destruct (_ <? _); [reflexivity|]. destruct l; reflexivity.
Qed.

Lemma record_message_window_size :
  SW.window_size (fst (SW.record_message self user_id now))
  = SW.window_size self.
Proof.
  unfold SW.record_message. cbv zeta.
  destruct (SW.user_messages (SW._cleanup_window self user_id now) !! user_id);
    destruct (_ <? _); simpl; apply cleanup_window_size.
Qed.

Lemma record_message_max_requests :
  SW.max_requests (fst (SW.record_message self user_id now))
  = SW.max_requests self.
Proof.
  unfold SW.record_message. cbv zeta.
  destruct (SW.user_messages (SW._cleanup_window self user_id now) !! user_id);
    destruct (_ <? _); simpl; apply cleanup_max_requests.
Qed.

Lemma record_message_result :
  snd (SW.record_message self user_id now)
  = (Z.of_nat (length (default [] kept)) <? SW.max_requests self).
Proof.
  unfold SW.record_message. cbv zeta.
  pose proof (cleanup_lookup self user_id now) as Hl.
  destruct (SW.user_messages (SW._cleanup_window self user_id now) !! user_id)
    as [l|] eqn:E; rewrite <- Hl; simpl.
  - rewrite E, cleanup_max_requests. simpl. destruct (_ <? _); reflexivity.
  - rewrite lookup_insert_eq, cleanup_max_requests. simpl.
    destruct (_ <? _); reflexivity.
Qed.

Lemma record_message_lookup :
  SW.user_messages (fst (SW.record_message self user_id now)) !! user_id
  = if Z.of_nat (length (default [] kept)) <? SW.max_requests self
    then Some (default [] kept ++ [now])
    else Some (default [] kept).
Proof.
  unfold SW.record_message. cbv zeta.
  pose proof (cleanup_lookup self user_id now) as Hl.
  destruct (SW.user_messages (SW._cleanup_window self user_id now) !! user_id)
    as [l|] eqn:E; rewrite <- Hl; simpl.
  - rewrite E, cleanup_max_requests. simpl.
    destruct (_ <? _); simpl; [apply lookup_insert_eq|exact E].
  - rewrite lookup_insert_eq, cleanup_max_requests. simpl.
    destruct (_ <? _); simpl; apply lookup_insert_eq.
Qed.

Lemma record_message_lookup_ne (other : string) :
  user_id ≠ other →
  SW.user_messages (fst (SW.record_message self user_id now)) !! other
  = SW.user_messages self !! other.
Proof.
  intros Hne. unfold SW.record_message. cbv zeta.
  destruct (SW.user_messages (SW._cleanup_window self user_id now) !! user_id)
    as [l|] eqn:E; simpl.
  - destruct (_ <? _); simpl;
      rewrite ?lookup_insert_ne by done; by apply cleanup_lookup_ne.
  - destruct (_ <? _); simpl;
      rewrite ?lookup_insert_ne by done; by apply cleanup_lookup_ne.
Qed.

End SlidingWindowMethods.

(** ** Calls, runs and what they preserve *)

Lemma sw_step_state (self : SW.t) (c : SW.call) :
  fst (SW.step self c)
  = match c with
    | SW.CanSend u n | SW.TimeUntil u n => SW._cleanup_window self u n
    | SW.Record_ u n => fst (SW.record_message self u n)
    end.
Proof.
  destruct c as [u n|u n|u n]; simpl.
  - rewrite <- can_send_message_state. by destruct (SW.can_send_message self u n).
  - by destruct (SW.record_message self u n).
  - rewrite <- time_until_next_allowed_state.
    by destruct (SW.time_until_next_allowed self u n).
Qed.

Lemma sw_step_window_size (self : SW.t) (c : SW.call) :
  SW.window_size (fst (SW.step self c)) = SW.window_size self.
Proof.
  rewrite sw_step_state. destruct c;
    auto using cleanup_window_size, record_message_window_size.
Qed.

Lemma sw_step_max_requests (self : SW.t) (c : SW.call) :
  SW.max_requests (fst (SW.step self c)) = SW.max_requests self.
Proof.
  rewrite sw_step_state. destruct c;
    auto using cleanup_max_requests, record_message_max_requests.
Qed.

Lemma sw_step_lookup_ne (self : SW.t) (c : SW.call) (other : string) :
  SW.call_user c ≠ other →
  SW.user_messages (fst (SW.step self c)) !! other
  = SW.user_messages self !! other.
Proof.
  rewrite sw_step_state. destruct c; simpl; intros Hne;
    auto using cleanup_lookup_ne, record_message_lookup_ne.
Qed.

Lemma sw_run_cons (self : SW.t) (c : SW.call) (calls : list SW.call) :
  SW.run self (c :: calls) = SW.run (fst (SW.step self c)) calls.
Proof. reflexivity. Qed.

Lemma sw_run_window_size (calls : list SW.call) (self : SW.t) :
  SW.window_size (SW.run self calls) = SW.window_size self.
Proof.
  revert self. induction calls as [|c calls IH]; intros self; [reflexivity|].
  by rewrite sw_run_cons, IH, sw_step_window_size.
Qed.

Lemma sw_run_max_requests (calls : list SW.call) (self : SW.t) :
  SW.max_requests (SW.run self calls) = SW.max_requests self.
Proof.
  revert self. induction calls as [|c calls IH]; intros self; [reflexivity|].
  by rewrite sw_run_cons, IH, sw_step_max_requests.
Qed.

(** An invariant of the object that every call preserves holds after every
    run. *)
Lemma sw_run_invariant (P : SW.t → Prop) :
  (∀ self c, P self → P (fst (SW.step self c))) →
  ∀ calls self, P self → P (SW.run self calls).
Proof.
  intros Hstep calls. induction calls as [|c calls IH]; intros self HP;
    [exact HP|].
  rewrite sw_run_cons. apply IH, Hstep, HP.
Qed.

(** ** Length of the deques *)

Lemma pruned_entry_length (cutoff : Z) (entry : option (list Z)) (l : list Z) :
  SW.pruned_entry cutoff entry = Some l →
  ∃ l0, entry = Some l0 ∧ (length l <= length l0)%nat.
Proof.
  destruct entry as [l0|]; simpl; [|discriminate].
  intros H. exists l0. split; [reflexivity|].
  pose proof (popleft_while_length cutoff l0) as Hlen.
  destruct (SW.popleft_while cutoff l0); [discriminate|].
  injection H as <-. exact Hlen.
Qed.

Lemma cleanup_within_cap (self : SW.t) (user_id : string) (now : Z) :
  SW.within_cap self → SW.within_cap (SW._cleanup_window self user_id now).
Proof.
  intros Hcap k l. rewrite cleanup_lookup_any, cleanup_max_requests.
  case_decide; [|apply Hcap].
  intros (l0 & Hl0 & Hlen)%pruned_entry_length.
  specialize (Hcap _ _ Hl0). lia.
Qed.

Lemma sw_step_within_cap (self : SW.t) (c : SW.call) :
  0 <= SW.max_requests self →
  SW.within_cap self → SW.within_cap (fst (SW.step self c)).
Proof.
  intros Hmax Hcap. rewrite sw_step_state.
  destruct c as [u n|u n|u n]; try by apply cleanup_within_cap.
  intros k l. rewrite record_message_max_requests.
  destruct (decide (u = k)) as [<-|Hne].
  - rewrite record_message_lookup.
    destruct (SW.pruned_entry _ _) as [l1|] eqn:E;
      cbn [default from_option id length app Z.of_nat].
    + apply pruned_entry_length in E as (l0 & Hl0 & Hlen).
      specialize (Hcap _ _ Hl0).
      destruct (Z.ltb_spec (Z.of_nat (length l1)) (SW.max_requests self));
        intros [= <-]; rewrite ?length_app; simpl; lia.
    + destruct (Z.ltb_spec (Z.of_nat 0) (SW.max_requests self));
        intros [= <-]; simpl; lia.
  - rewrite record_message_lookup_ne by done. apply Hcap.
Qed.

Lemma sw_init_within_cap (w m : Z) : 0 <= m → SW.within_cap (SW.init w m).
Proof. intros Hm k l. simpl. by rewrite lookup_empty. Qed.

Lemma sw_run_within_cap (w m : Z) (calls : list SW.call) :
  0 <= m → SW.within_cap (SW.run (SW.init w m) calls).
Proof.
  intros Hm.
  apply (sw_run_invariant (fun s => SW.max_requests s = m ∧ SW.within_cap s)).
  - intros self c [Hmax Hcap]. split.
    + by rewrite sw_step_max_requests.
    + apply sw_step_within_cap; [lia|exact Hcap].
  - split; [reflexivity|by apply sw_init_within_cap].
Qed.

Lemma count_in_window_le_length (w u : Z) (l : list Z) :
  (SW.count_in_window w u l <= length l)%nat.
Proof. unfold SW.count_in_window. apply length_filter. Qed.

(** ** Sliding window: accepted timestamps against the stored deque *)

Lemma popleft_while_split (cutoff : Z) (l : list Z) :
  ∃ dropped, l = dropped ++ SW.popleft_while cutoff l
             ∧ Forall (fun e => e < cutoff) dropped.
Proof.
  induction l as [|a l (d & Hd & Hall)]; simpl; [by exists []|].
  destruct (Z.ltb_spec a cutoff) as [Hlt|Hge].
  - exists (a :: d). split; [by rewrite Hd at 1|by constructor].
  - by exists [].
Qed.

Lemma default_pruned_entry (cutoff : Z) (entry : option (list Z)) :
  default [] (SW.pruned_entry cutoff entry)
  = SW.popleft_while cutoff (default [] entry).
Proof.
  destruct entry as [l|]; simpl; [|reflexivity].
  by destruct (SW.popleft_while cutoff l).
Qed.

Lemma stored_cleanup (self : SW.t) (user_id other : string) (now : Z) :
  SW.stored (SW._cleanup_window self user_id now) other
  = if decide (user_id = other)
    then SW.popleft_while (now - SW.window_size self) (SW.stored self other)
    else SW.stored self other.
Proof.
  unfold SW.stored. rewrite cleanup_lookup_any.
  case_decide; [apply default_pruned_entry|reflexivity].
Qed.

Lemma record_message_accepts (self : SW.t) (user_id : string) (now : Z) :
  snd (SW.record_message self user_id now)
  = (Z.of_nat (length (SW.popleft_while (now - SW.window_size self)
                         (SW.stored self user_id)))
     <? SW.max_requests self).
Proof.
  rewrite record_message_result, default_pruned_entry. reflexivity.
Qed.

Lemma stored_record_message (self : SW.t) (user_id other : string) (now : Z) :
  SW.stored (fst (SW.record_message self user_id now)) other
  = if decide (user_id = other)
    then SW.popleft_while (now - SW.window_size self) (SW.stored self other)
         ++ (if snd (SW.record_message self user_id now) then [now] else [])
    else SW.stored self other.
Proof.
  unfold SW.stored at 1. case_decide as H.
  - subst other. rewrite record_message_lookup, record_message_accepts.
    rewrite default_pruned_entry. fold (SW.stored self user_id).
    destruct (_ <? _); simpl; [reflexivity|by rewrite app_nil_r].
  - by rewrite record_message_lookup_ne.
Qed.

Lemma count_in_window_app (w u : Z) (l1 l2 : list Z) :
  SW.count_in_window w u (l1 ++ l2)
  = (SW.count_in_window w u l1 + SW.count_in_window w u l2)%nat.
Proof. unfold SW.count_in_window. by rewrite filter_app, length_app. Qed.

Lemma count_in_window_older (w u : Z) (l : list Z) :
  Forall (fun e => e < u - w) l → SW.count_in_window w u l = 0%nat.
Proof.
  unfold SW.count_in_window. induction 1 as [|e l He _ IH]; [reflexivity|].
  rewrite filter_cons_False by lia. exact IH.
Qed.

Lemma count_in_window_single (w u x : Z) :
  (SW.count_in_window w u [x] <= 1)%nat.
Proof. apply (count_in_window_le_length w u [x]). Qed.

Lemma count_in_window_outside (w u x : Z) :
  ¬ (u - w <= x ∧ x <= u) → SW.count_in_window w u [x] = 0%nat.
Proof.
  intros H. unfold SW.count_in_window. by rewrite filter_cons_False.
Qed.

Lemma log_inv_later (w m now now' : Z) (log kept : list Z) :
  now <= now' → SW.log_inv w m now log kept → SW.log_inv w m now' log kept.
Proof.
  intros Hle ((d & Hd & Hold) & Hpast & Hlen & Hcap).
  split; [|split; [|by split]].
  - exists d. split; [exact Hd|].
    eapply Forall_impl; [exact Hold|]. simpl. intros; lia.
  - eapply Forall_impl; [exact Hpast|]. simpl. intros; lia.
Qed.

Lemma log_inv_prune (w m now : Z) (log kept : list Z) :
  SW.log_inv w m now log kept →
  SW.log_inv w m now log (SW.popleft_while (now - w) kept).
Proof.
  intros ((d & Hd & Hold) & Hpast & Hlen & Hcap).
  destruct (popleft_while_split (now - w) kept) as (d' & Hd' & Hold').
  split; [|split; [exact Hpast|split; [|exact Hcap]]].
  - exists (d ++ d'). split.
    + by rewrite <- app_assoc, <- Hd'.
    + by apply Forall_app.
  - pose proof (popleft_while_length (now - w) kept). lia.
Qed.

(** Accepting a request at [now] when fewer than [m] timestamps are kept. *)
Lemma log_inv_accept (w m now : Z) (log kept : list Z) :
  SW.log_inv w m now log kept →
  Z.of_nat (length kept) < m →
  SW.log_inv w m now (log ++ [now]) (kept ++ [now]).
Proof.
  intros ((d & Hd & Hold) & Hpast & _ & Hcap) Hlen.
  split; [|split; [|split]].
  - exists d. split; [by rewrite Hd, app_assoc|exact Hold].
  - apply Forall_app. split; [exact Hpast|]. constructor; [lia|constructor].
  - rewrite length_app. simpl. lia.
  - intros u. rewrite count_in_window_app.
    destruct (decide (u - w <= now ∧ now <= u)) as [Hin|Hout].
    + pose proof (count_in_window_single w u now).
      rewrite Hd, count_in_window_app.
      rewrite (count_in_window_older w u d).
      * pose proof (count_in_window_le_length w u kept). lia.
      * eapply Forall_impl; [exact Hold|]. simpl. intros; lia.
    + rewrite (count_in_window_outside w u now Hout).
      specialize (Hcap u). lia.
Qed.

Lemma sw_step_log_inv (w m now : Z) (self : SW.t) (user_id : string)
    (c : SW.call) (log : list Z) :
  SW.window_size self = w → SW.max_requests self = m →
  now <= SW.call_time c →
  SW.log_inv w m now log (SW.stored self user_id) →
  SW.log_inv w m (SW.call_time c)
    (log ++ SW.accepted_by self user_id c)
    (SW.stored (fst (SW.step self c)) user_id).
Proof.
  intros Hw Hm Hnow Hinv.
  apply (log_inv_later _ _ _ _ _ _ Hnow) in Hinv.
  rewrite sw_step_state.
  destruct c as [u n|u n|u n]; simpl in *.
  - rewrite app_nil_r, stored_cleanup, Hw.
    case_decide; [by apply log_inv_prune|exact Hinv].
  - rewrite stored_record_message, Hw.
    destruct (decide (u = user_id)) as [->|Hne].
    + apply log_inv_prune in Hinv.
      destruct (snd (SW.record_message self user_id n)) eqn:Hok.
      * apply log_inv_accept; [exact Hinv|].
        rewrite record_message_accepts, Hw, Hm in Hok.
        by apply Z.ltb_lt in Hok.
      * by rewrite !app_nil_r.
    + destruct (snd _); by rewrite app_nil_r.
  - rewrite app_nil_r, stored_cleanup, Hw.
    case_decide; [by apply log_inv_prune|exact Hinv].
Qed.

Lemma sw_run_log_inv (w m : Z) (user_id : string) (calls : list SW.call) :
  ∀ (now : Z) (self : SW.t) (log : list Z),
    SW.window_size self = w → SW.max_requests self = m →
    SW.chronological now calls →
    SW.log_inv w m now log (SW.stored self user_id) →
    SW.log_inv w m (SW.clock_after now calls)
      (log ++ SW.accepted self user_id calls)
      (SW.stored (SW.run self calls) user_id).
Proof.
  induction calls as [|c calls IH]; intros now self log Hw Hm Hchron Hinv.
  { simpl. by rewrite app_nil_r. }
  destruct Hchron as [Hnow Hrest].
  cbn [SW.accepted]. rewrite app_assoc, sw_run_cons.
  unfold SW.clock_after. simpl.
  apply IH; [by rewrite sw_step_window_size|by rewrite sw_step_max_requests
            |exact Hrest|].
  by apply (sw_step_log_inv w m now).
Qed.

Lemma sw_init_log_inv (w m now : Z) (user_id : string) :
  0 <= m → SW.log_inv w m now [] (SW.stored (SW.init w m) user_id).
Proof.
  intros Hm. unfold SW.stored. simpl. rewrite lookup_empty. simpl.
  split; [by exists []|]. split; [constructor|]. split; [simpl; lia|].
  intros u. unfold SW.count_in_window. rewrite filter_nil. simpl. lia.
Qed.

(** ** Sliding window: the cap *)

(** C4.  With [max_requests >= 1], after any sequence of calls made at
    non-decreasing times, for every identity and every trailing interval
    [[u - window_size, u]], at most [max_requests] of the identity's stored
    timestamps lie in the interval; the same bound holds for all timestamps
    accepted for the identity, whether still stored or already pruned. *)
Theorem sliding_window_cap_invariant
    (w m now : Z) (calls : list SW.call) (user_id : string) (u : Z) :
  1 <= m →
  SW.chronological now calls →
  Z.of_nat (SW.count_in_window w u
              (SW.stored (SW.run (SW.init w m) calls) user_id)) <= m
  ∧ Z.of_nat (SW.count_in_window w u
                (SW.accepted (SW.init w m) user_id calls)) <= m.
Proof.
  intros Hm Hchron.
  pose proof (sw_run_log_inv w m user_id calls now (SW.init w m) []
                eq_refl eq_refl Hchron
                (sw_init_log_inv w m now user_id ltac:(lia)))
    as (_ & _ & Hlen & Hcap).
  split; [|exact (Hcap u)].
  pose proof (count_in_window_le_length w u
                (SW.stored (SW.run (SW.init w m) calls) user_id)).
  lia.
Qed.

Lemma sliding_window_cap_invariant_witness :
  let calls := [SW.Record_ "A" 0; SW.Record_ "A" 5; SW.Record_ "B" 7;
                SW.Record_ "A" 11; SW.Record_ "A" 12] in
  1 <= 2
  ∧ SW.chronological 0 calls
  ∧ SW.accepted (SW.init 10 2) "A" calls = [0; 5; 11]
  ∧ SW.stored (SW.run (SW.init 10 2) calls) "A" = [5; 11]
  ∧ Z.of_nat (SW.count_in_window 10 12
                (SW.stored (SW.run (SW.init 10 2) calls) "A")) <= 2
  ∧ Z.of_nat (SW.count_in_window 10 12
                (SW.accepted (SW.init 10 2) "A" calls)) <= 2.
Proof.
  intros calls. split; [lia|]. split; [simpl; lia|].
  split; [reflexivity|]. split; [reflexivity|].
  apply (sliding_window_cap_invariant 10 2 0 calls "A" 12); [lia|simpl; lia].
Defined.

(** ** Sliding window: [can_send_message] followed by [record_message] *)

(** With a cap of at least one, a positive answer of [can_send_message] is
    honoured by [record_message] at the same clock reading. *)
Lemma can_send_then_record_accepts (self : SW.t) (user_id : string) (now : Z) :
  1 <= SW.max_requests self →
  snd (SW.can_send_message self user_id now) = true →
  snd (SW.record_message (fst (SW.can_send_message self user_id now))
         user_id now) = true.
Proof.
  intros Hm. rewrite can_send_message_state, can_send_message_result.
  rewrite record_message_result.
  rewrite cleanup_lookup, cleanup_window_size, cleanup_max_requests.
  rewrite pruned_entry_idem.
  destruct (SW.pruned_entry _ _) as [l|]; simpl; [done|].
  intros _. apply Z.ltb_lt. lia.
Qed.

(** C1.  The claim fails for [max_requests = 0]: on a new limiter
    [can_send_message "A"] answers true, and [record_message "A"] on the
    resulting state at the same time answers false. *)
Theorem can_send_true_then_record_false_at_zero_cap :
  let self := SW.init 10 0 in
  snd (SW.can_send_message self "A" 0) = true
  ∧ snd (SW.record_message (fst (SW.can_send_message self "A" 0)) "A" 0)
    = false.
Proof. split; reflexivity. Qed.

(** ** Sliding window: a cap of zero *)

Lemma sw_step_only_empty_entries (self : SW.t) (c : SW.call) :
  SW.max_requests self <= 0 →
  SW.only_empty_entries self → SW.only_empty_entries (fst (SW.step self c)).
Proof.
  intros Hm Hall.
  assert (Hkept : ∀ u cutoff,
             SW.pruned_entry cutoff (SW.user_messages self !! u) = None).
  { intros u cutoff. destruct (SW.user_messages self !! u) as [l0|] eqn:E;
      [|reflexivity].
    by rewrite (Hall _ _ E). }
  rewrite sw_step_state. intros k l.
  destruct c as [u n|u n|u n].
  - rewrite cleanup_lookup_any. case_decide; [by rewrite Hkept|apply Hall].
  - destruct (decide (u = k)) as [<-|Hne].
    + rewrite record_message_lookup, Hkept.
      cbn [default from_option id length app].
      destruct (Z.ltb_spec (Z.of_nat 0) (SW.max_requests self)); [lia|].
      by intros [= <-].
    + rewrite record_message_lookup_ne by done. apply Hall.
  - rewrite cleanup_lookup_any. case_decide; [by rewrite Hkept|apply Hall].
Qed.

Lemma sw_run_only_empty_entries (w m : Z) (calls : list SW.call) :
  m <= 0 → SW.only_empty_entries (SW.run (SW.init w m) calls).
Proof.
  intros Hm.
  apply (sw_run_invariant
           (fun s => SW.max_requests s = m ∧ SW.only_empty_entries s)).
  - intros self c [Hmax Hall]. split.
    + by rewrite sw_step_max_requests.
    + apply sw_step_only_empty_entries; [lia|exact Hall].
  - split; [reflexivity|]. intros k l. simpl. by rewrite lookup_empty.
Qed.

(** C2.  With [max_requests = 0], in every reachable state, for every identity
    and time, [record_message] answers false but [can_send_message] answers
    true, where the claim says false. *)
Theorem zero_cap_can_send_true_record_false
    (w : Z) (calls : list SW.call) (user_id : string) (now : Z) :
  let self := SW.run (SW.init w 0) calls in
  snd (SW.can_send_message self user_id now) = true
  ∧ snd (SW.record_message self user_id now) = false.
Proof.
  intros self.
  pose proof (sw_run_only_empty_entries w 0 calls ltac:(lia)) as Hall.
  fold self in Hall.
  assert (Hkept : SW.pruned_entry (now - SW.window_size self)
                    (SW.user_messages self !! user_id) = None).
  { destruct (SW.user_messages self !! user_id) as [l0|] eqn:E;
      [|reflexivity].
    by rewrite (Hall _ _ E). }
  rewrite can_send_message_result, record_message_result, Hkept.
  split; [reflexivity|].
  unfold self. rewrite sw_run_max_requests. reflexivity.
Qed.

(** ** Sliding window: rejection and empty entries *)

(** With a cap of at least one, a rejected [record_message] leaves exactly
    what [_cleanup_window] leaves. *)
Lemma record_message_rejected_state (self : SW.t) (user_id : string) (now : Z) :
  1 <= SW.max_requests self →
  snd (SW.record_message self user_id now) = false →
  fst (SW.record_message self user_id now)
  = SW._cleanup_window self user_id now.
Proof.
  intros Hm Hrej. rewrite record_message_result in Hrej.
  apply sw_eq.
  - by rewrite record_message_window_size, cleanup_window_size.
  - by rewrite record_message_max_requests, cleanup_max_requests.
  - apply map_eq. intros k. destruct (decide (user_id = k)) as [<-|Hne].
    + rewrite record_message_lookup, cleanup_lookup, Hrej.
      destruct (SW.pruned_entry _ _) as [l|]; [reflexivity|].
      simpl in Hrej. apply Z.ltb_ge in Hrej. lia.
    + by rewrite record_message_lookup_ne, cleanup_lookup_ne.
Qed.

(** C3.  The claim fails for [max_requests = 0]: [record_message "A"] on a new
    limiter answers false and leaves an entry for ["A"] (an empty deque) that
    [_cleanup_window] alone does not create. *)
Theorem rejected_record_creates_entry_at_zero_cap :
  let self := SW.init 10 0 in
  snd (SW.record_message self "A" 0) = false
  ∧ SW.user_messages (fst (SW.record_message self "A" 0)) !! "A" = Some []
  ∧ SW.user_messages (SW._cleanup_window self "A" 0) !! "A" = None.
Proof. repeat split; reflexivity. Qed.

Lemma sw_step_no_empty_entry (self : SW.t) (c : SW.call) :
  1 <= SW.max_requests self →
  SW.no_empty_entry self → SW.no_empty_entry (fst (SW.step self c)).
Proof.
  intros Hm Hne. rewrite sw_step_state. intros k.
  destruct c as [u n|u n|u n].
  - rewrite cleanup_lookup_any.
    case_decide; [apply pruned_entry_not_empty|apply Hne].
  - destruct (decide (u = k)) as [<-|Hk].
    + rewrite record_message_lookup.
      pose proof (pruned_entry_not_empty (n - SW.window_size self)
                    (SW.user_messages self !! u)) as Hkept.
      destruct (SW.pruned_entry _ _) as [l|];
        cbn [default from_option id length app].
      * destruct (_ <? _); [|congruence].
        intros [= H]. by destruct l.
      * destruct (Z.ltb_spec (Z.of_nat 0) (SW.max_requests self));
          [discriminate|simpl in *; lia].
    + rewrite record_message_lookup_ne by done. apply Hne.
  - rewrite cleanup_lookup_any.
    case_decide; [apply pruned_entry_not_empty|apply Hne].
Qed.

(** With a cap of at least one no call leaves an empty deque behind. *)
Lemma sw_run_no_empty_entry (w m : Z) (calls : list SW.call) :
  1 <= m → SW.no_empty_entry (SW.run (SW.init w m) calls).
Proof.
  intros Hm.
  apply (sw_run_invariant
           (fun s => SW.max_requests s = m ∧ SW.no_empty_entry s)).
  - intros self c [Hmax Hne]. split.
    + by rewrite sw_step_max_requests.
    + apply sw_step_no_empty_entry; [lia|exact Hne].
  - split; [reflexivity|]. intros k. simpl. by rewrite lookup_empty.
Qed.

(** C7.  The claim fails for [max_requests = 0]: after [record_message "A"] on
    a new limiter the dictionary holds an entry for ["A"] whose deque is
    empty. *)
Theorem record_leaves_empty_entry_at_zero_cap :
  let self := SW.run (SW.init 10 0) [SW.Record_ "A" 0] in
  SW.user_messages self !! "A" = Some [] ∧ ¬ SW.no_empty_entry self.
Proof.
  intros self.
  assert (H : SW.user_messages self !! "A" = Some []) by reflexivity.
  split; [exact H|]. intros Hne. exact (Hne "A" H).
Qed.

(** ** The public methods of the throttling limiter *)

Section ThrottlingMethods.

Variables (self : TH.t) (user_id : string).

Lemma th_can_send_message_state (now : Z) :
  fst (TH.can_send_message self user_id now) = self.
Proof.
  unfold TH.can_send_message.
  by destruct (TH.user_last_message self !! user_id).
Qed.

Lemma th_can_send_message_true (now : Z) :
  snd (TH.can_send_message self user_id now) = true ↔
  match TH.user_last_message self !! user_id with
  | None => True
  | Some last_time => TH.min_interval self <= now - last_time
  end.
Proof.
  unfold TH.can_send_message.
  destruct (TH.user_last_message self !! user_id) as [last|]; simpl;
    [apply Z.leb_le|done].
Qed.

Lemma th_time_until_next_allowed_state (now : Z) :
  fst (TH.time_until_next_allowed self user_id now) = self.
Proof.
  unfold TH.time_until_next_allowed.
  by destruct (TH.user_last_message self !! user_id).
Qed.

Lemma th_record_message_result (check_time store_time : Z) :
  snd (TH.record_message self user_id check_time store_time)
  = snd (TH.can_send_message self user_id check_time).
Proof.
  unfold TH.record_message, TH.can_send_message.
  destruct (TH.user_last_message self !! user_id) as [last|]; [|reflexivity].
  by destruct (_ <=? _).
Qed.

Lemma th_record_message_state (check_time store_time : Z) :
  fst (TH.record_message self user_id check_time store_time)
  = if snd (TH.can_send_message self user_id check_time)
    then TH.set_user_last_message self
           (<[user_id := store_time]> (TH.user_last_message self))
    else self.
Proof.
  unfold TH.record_message, TH.can_send_message.
  destruct (TH.user_last_message self !! user_id) as [last|]; [|reflexivity].
  by destruct (_ <=? _).
Qed.

Lemma th_record_message_min_interval (check_time store_time : Z) :
  TH.min_interval (fst (TH.record_message self user_id check_time store_time))
  = TH.min_interval self.
Proof. rewrite th_record_message_state. by destruct (snd _). Qed.

Lemma th_record_message_lookup_ne
    (check_time store_time : Z) (other : string) :
  user_id ≠ other →
  TH.user_last_message
    (fst (TH.record_message self user_id check_time store_time)) !! other
  = TH.user_last_message self !! other.
Proof.
  intros Hne. rewrite th_record_message_state.
  destruct (snd _); simpl; [by apply lookup_insert_ne|reflexivity].
Qed.

End ThrottlingMethods.

Lemma th_step_state (self : TH.t) (c : TH.call) :
  fst (TH.step self c)
  = match c with
    | TH.CanSend _ _ | TH.TimeUntil _ _ => self
    | TH.Record_ u n1 n2 => fst (TH.record_message self u n1 n2)
    end.
Proof.
  destruct c as [u n|u n1 n2|u n]; simpl.
  - rewrite <- (th_can_send_message_state self u n) at 2.
    by destruct (TH.can_send_message self u n).
  - by destruct (TH.record_message self u n1 n2).
  - rewrite <- (th_time_until_next_allowed_state self u n) at 2.
    by destruct (TH.time_until_next_allowed self u n).
Qed.

Lemma th_step_min_interval (self : TH.t) (c : TH.call) :
  TH.min_interval (fst (TH.step self c)) = TH.min_interval self.
Proof.
  rewrite th_step_state. destruct c; auto using th_record_message_min_interval.
Qed.

Lemma th_step_lookup_ne (self : TH.t) (c : TH.call) (other : string) :
  TH.call_user c ≠ other →
  TH.user_last_message (fst (TH.step self c)) !! other
  = TH.user_last_message self !! other.
Proof.
  rewrite th_step_state. destruct c; simpl; intros Hne;
    auto using th_record_message_lookup_ne.
Qed.

Lemma th_run_cons (self : TH.t) (c : TH.call) (calls : list TH.call) :
  TH.run self (c :: calls) = TH.run (fst (TH.step self c)) calls.
Proof. reflexivity. Qed.

Lemma th_run_min_interval (calls : list TH.call) (self : TH.t) :
  TH.min_interval (TH.run self calls) = TH.min_interval self.
Proof.
  revert self. induction calls as [|c calls IH]; intros self; [reflexivity|].
  by rewrite th_run_cons, IH, th_step_min_interval.
Qed.

(** ** Throttling: spacing of accepted events *)

Lemma accepted_cons (self : TH.t) (user_id : string) (c : TH.call)
    (rest : list TH.call) :
  TH.accepted self user_id (c :: rest)
  = match c with
    | TH.Record_ u check_time store_time =>
        if snd (TH.can_send_message self u check_time)
        then if decide (u = user_id)
             then store_time :: TH.accepted (fst (TH.step self c)) user_id rest
             else TH.accepted (fst (TH.step self c)) user_id rest
        else TH.accepted (fst (TH.step self c)) user_id rest
    | _ => TH.accepted (fst (TH.step self c)) user_id rest
    end.
Proof.
  destruct c as [u n|u n1 n2|u n]; simpl.
  - by destruct (TH.can_send_message self u n) as [s []].
  - rewrite <- th_record_message_result with (store_time := n2).
    by destruct (TH.record_message self u n1 n2) as [s []].
  - by destruct (TH.time_until_next_allowed self u n).
Qed.

Lemma spaced_after_cons (gap : Z) (prev : option Z) (x : Z) (l : list Z) :
  match prev with None => True | Some a => gap <= x - a end →
  TH.spaced_after gap (Some x) l →
  TH.spaced_after gap prev (x :: l).
Proof. destruct prev as [a|]; simpl; [by split|done]. Qed.

Lemma accepted_spaced_after (calls : list TH.call) :
  ∀ (self : TH.t) (now : Z) (user_id : string),
    TH.chronological now calls →
    TH.spaced_after (TH.min_interval self)
      (TH.user_last_message self !! user_id)
      (TH.accepted self user_id calls).
Proof.
  induction calls as [|c calls IH]; intros self now user_id Hchron.
  { simpl. by destruct (TH.user_last_message self !! user_id). }
  destruct Hchron as (Hnow & Hcall & Hrest).
  specialize (IH (fst (TH.step self c)) (TH.call_end c) user_id Hrest).
  rewrite th_step_min_interval in IH.
  rewrite accepted_cons.
  remember (TH.accepted (fst (TH.step self c)) user_id calls) as acc.
  rewrite th_step_state in IH.
  destruct c as [u n|u n1 n2|u n]; [exact IH| |exact IH].
  simpl in Hcall. rewrite th_record_message_state in IH.
  destruct (snd (TH.can_send_message self u n1)) eqn:Hok; [|exact IH].
  simpl in IH.
  destruct (decide (u = user_id)) as [->|Hne].
  - apply spaced_after_cons.
    + apply th_can_send_message_true in Hok.
      destruct (TH.user_last_message self !! user_id); [lia|done].
    + by rewrite lookup_insert_eq in IH.
  - by rewrite lookup_insert_ne in IH.
Qed.

(** In the exact arithmetic of [ThrottlingRateLimiter]: along every sequence
    of calls whose clock readings never decrease, the timestamps recorded by
    consecutive accepted [record_message] calls of one identity are at least
    [min_interval] apart.  With Python's floats only the rounded difference is
    compared; see [ThrottlingRateLimiterFloat] below. *)
Theorem throttling_spacing
    (m now : Z) (calls : list TH.call) (user_id : string) :
  TH.chronological now calls →
  TH.spaced m (TH.accepted (TH.init m) user_id calls)
  ∧ ∀ (check_time store_time last_time : Z),
      check_time <= store_time →
      TH.user_last_message (TH.run (TH.init m) calls) !! user_id
        = Some last_time →
      snd (TH.record_message (TH.run (TH.init m) calls) user_id
             check_time store_time) = true →
      m <= store_time - last_time
      ∧ TH.user_last_message
          (fst (TH.record_message (TH.run (TH.init m) calls) user_id
                  check_time store_time)) !! user_id = Some store_time.
Proof.
  intros Hchron. split.
  - pose proof (accepted_spaced_after calls (TH.init m) now user_id Hchron)
      as H.
    simpl in H. by rewrite lookup_empty in H.
  - intros check_time store_time last_time Hle Hlast Hok.
    rewrite th_record_message_result in Hok.
    rewrite th_record_message_state, Hok. simpl.
    rewrite lookup_insert_eq. split; [|reflexivity].
    apply th_can_send_message_true in Hok.
    rewrite Hlast, th_run_min_interval in Hok. simpl in Hok. lia.
Qed.

Lemma throttling_spacing_witness :
  let calls := [TH.Record_ "B" 0 0; TH.Record_ "B" 99 99;
                TH.Record_ "B" 100 101; TH.Record_ "B" 205 205] in
  TH.chronological 0 calls
  ∧ TH.accepted (TH.init 100) "B" calls = [0; 101; 205]
  ∧ TH.spaced 100 (TH.accepted (TH.init 100) "B" calls).
Proof.
  intros calls. split; [simpl; lia|]. split; [reflexivity|].
  apply (throttling_spacing 100 0 calls "B"). simpl; lia.
Defined.

(** ** Throttling: a non-positive interval *)

Lemma not_after_mono (now now' : Z) (self : TH.t) :
  now <= now' → TH.not_after now self → TH.not_after now' self.
Proof. intros Hle H u last Hu. specialize (H u last Hu). lia. Qed.

Lemma th_step_not_after (now : Z) (self : TH.t) (c : TH.call) :
  now <= TH.call_start c → TH.call_start c <= TH.call_end c →
  TH.not_after now self →
  TH.not_after (TH.call_end c) (fst (TH.step self c)).
Proof.
  intros H1 H2 Hinv. rewrite th_step_state.
  destruct c as [u n|u n1 n2|u n]; simpl in *;
    try (apply (not_after_mono now); [lia|exact Hinv]).
  rewrite th_record_message_state.
  destruct (snd _); [|apply (not_after_mono now); [lia|exact Hinv]].
  intros k last. simpl. destruct (decide (u = k)) as [<-|Hne].
  - rewrite lookup_insert_eq. intros [= <-]. lia.
  - rewrite lookup_insert_ne by done. intros Hk.
    specialize (Hinv k last Hk). lia.
Qed.

Lemma th_run_not_after (calls : list TH.call) :
  ∀ (now : Z) (self : TH.t),
    TH.chronological now calls →
    TH.not_after now self →
    TH.not_after (TH.clock_after now calls) (TH.run self calls).
Proof.
  induction calls as [|c calls IH]; intros now self Hchron Hinv; [exact Hinv|].
  destruct Hchron as (H1 & H2 & Hrest).
  rewrite th_run_cons. unfold TH.clock_after. simpl.
  apply IH; [exact Hrest|]. by apply (th_step_not_after now).
Qed.

(** C10.  With [min_interval <= 0] and clock readings that never decrease,
    [can_send_message] and [record_message] answer true for every identity in
    every reachable state. *)
Theorem throttling_nonpositive_interval_admits
    (m now : Z) (calls : list TH.call) (user_id : string)
    (check_time store_time : Z) :
  m <= 0 →
  TH.chronological now calls →
  TH.clock_after now calls <= check_time →
  check_time <= store_time →
  snd (TH.can_send_message (TH.run (TH.init m) calls) user_id check_time)
    = true
  ∧ snd (TH.record_message (TH.run (TH.init m) calls) user_id
           check_time store_time) = true.
Proof.
  intros Hm Hchron Hclock Hle.
  assert (Hinv : TH.not_after (TH.clock_after now calls)
                   (TH.run (TH.init m) calls)).
  { apply th_run_not_after; [exact Hchron|].
    intros k last. simpl. by rewrite lookup_empty. }
  assert (Hok : snd (TH.can_send_message (TH.run (TH.init m) calls) user_id
                       check_time) = true).
  { apply th_can_send_message_true.
    destruct (TH.user_last_message (TH.run (TH.init m) calls) !! user_id)
      as [last|] eqn:E; [|done].
    specialize (Hinv _ _ E). rewrite th_run_min_interval. simpl. lia. }
  split; [exact Hok|]. by rewrite th_record_message_result.
Qed.

Lemma throttling_nonpositive_interval_admits_witness :
  let calls := [TH.Record_ "B" 3 3; TH.CanSend "B" 3; TH.Record_ "C" 4 5] in
  0 <= 0
  ∧ TH.chronological 0 calls
  ∧ TH.clock_after 0 calls <= 5
  ∧ 5 <= 5
  ∧ snd (TH.can_send_message (TH.run (TH.init 0) calls) "B" 5) = true
  ∧ snd (TH.record_message (TH.run (TH.init 0) calls) "B" 5 5) = true.
Proof.
  intros calls. split; [lia|]. split; [simpl; lia|].
  split; [simpl; lia|]. split; [lia|].
  apply (throttling_nonpositive_interval_admits 0 0 calls "B" 5 5);
    simpl; lia.
Defined.

(** ** Identities do not interfere *)

Lemma sw_step_result (self : SW.t) (c : SW.call) :
  snd (SW.step self c)
  = match c with
    | SW.CanSend u n => SW.RBool (snd (SW.can_send_message self u n))
    | SW.Record_ u n => SW.RBool (snd (SW.record_message self u n))
    | SW.TimeUntil u n => SW.RWait (snd (SW.time_until_next_allowed self u n))
    end.
Proof.
  destruct c as [u n|u n|u n]; simpl.
  - by destruct (SW.can_send_message self u n).
  - by destruct (SW.record_message self u n).
  - by destruct (SW.time_until_next_allowed self u n).
Qed.

Lemma sw_observe_cons (self : SW.t) (y : string) (c : SW.call)
    (rest : list SW.call) :
  SW.observe self y (c :: rest)
  = if decide (SW.call_user c = y)
    then snd (SW.step self c) :: SW.observe (fst (SW.step self c)) y rest
    else SW.observe (fst (SW.step self c)) y rest.
Proof. simpl. by destruct (SW.step self c). Qed.

(** A call for [y] sees only the configuration and the entry of [y]. *)
Lemma sw_step_agree (y : string) (a b : SW.t) (c : SW.call) :
  SW.agree_on y a b → SW.call_user c = y →
  snd (SW.step a c) = snd (SW.step b c)
  ∧ SW.agree_on y (fst (SW.step a c)) (fst (SW.step b c)).
Proof.
  intros (Hw & Hm & Hy) Hc. split.
  - rewrite !sw_step_result. destruct c as [u n|u n|u n]; simpl in Hc; subst u.
    + by rewrite !can_send_message_result, Hw, Hm, Hy.
    + by rewrite !record_message_result, Hw, Hm, Hy.
    + by rewrite !time_until_next_allowed_result, Hw, Hm, Hy.
  - split; [by rewrite !sw_step_window_size|].
    split; [by rewrite !sw_step_max_requests|].
    rewrite !sw_step_state. destruct c as [u n|u n|u n]; simpl in Hc; subst u.
    + by rewrite !cleanup_lookup, Hw, Hy.
    + by rewrite !record_message_lookup, Hw, Hm, Hy.
    + by rewrite !cleanup_lookup, Hw, Hy.
Qed.

(** A call for another identity leaves the entry of [y] as it is. *)
Lemma sw_step_frame (y : string) (self : SW.t) (c : SW.call) :
  SW.call_user c ≠ y → SW.agree_on y (fst (SW.step self c)) self.
Proof.
  intros Hc. split; [apply sw_step_window_size|].
  split; [apply sw_step_max_requests|]. by apply sw_step_lookup_ne.
Qed.

Lemma sw_agree_on_trans (y : string) (a b c : SW.t) :
  SW.agree_on y a b → SW.agree_on y b c → SW.agree_on y a c.
Proof. intros (?&?&?) (?&?&?). repeat split; congruence. Qed.

Lemma sw_observe_filter (y : string) (calls : list SW.call) :
  ∀ a b : SW.t,
    SW.agree_on y a b →
    SW.observe a y calls
    = SW.observe b y (filter (fun c => SW.call_user c = y) calls)
    ∧ SW.agree_on y (SW.run a calls)
        (SW.run b (filter (fun c => SW.call_user c = y) calls)).
Proof.
  induction calls as [|c calls IH]; intros a b Hab; [by split|].
  rewrite sw_observe_cons, sw_run_cons.
  destruct (decide (SW.call_user c = y)) as [Hc|Hc].
  - rewrite filter_cons_True by done. rewrite sw_observe_cons, sw_run_cons.
    rewrite decide_True by done.
    destruct (sw_step_agree y a b c Hab Hc) as [-> Hnext].
    destruct (IH _ _ Hnext) as [-> Hrun]. by split.
  - rewrite filter_cons_False by done.
    apply IH. apply (sw_agree_on_trans y _ a); [|exact Hab].
    by apply sw_step_frame.
Qed.

Lemma th_step_result (self : TH.t) (c : TH.call) :
  snd (TH.step self c)
  = match c with
    | TH.CanSend u n => TH.RBool (snd (TH.can_send_message self u n))
    | TH.Record_ u n1 n2 => TH.RBool (snd (TH.record_message self u n1 n2))
    | TH.TimeUntil u n => TH.RWait (snd (TH.time_until_next_allowed self u n))
    end.
Proof.
  destruct c as [u n|u n1 n2|u n]; simpl.
  - by destruct (TH.can_send_message self u n).
  - by destruct (TH.record_message self u n1 n2).
  - by destruct (TH.time_until_next_allowed self u n).
Qed.

Lemma th_observe_cons (self : TH.t) (y : string) (c : TH.call)
    (rest : list TH.call) :
  TH.observe self y (c :: rest)
  = if decide (TH.call_user c = y)
    then snd (TH.step self c) :: TH.observe (fst (TH.step self c)) y rest
    else TH.observe (fst (TH.step self c)) y rest.
Proof. simpl. by destruct (TH.step self c). Qed.

Lemma th_step_agree (y : string) (a b : TH.t) (c : TH.call) :
  TH.agree_on y a b → TH.call_user c = y →
  snd (TH.step a c) = snd (TH.step b c)
  ∧ TH.agree_on y (fst (TH.step a c)) (fst (TH.step b c)).
Proof.
  intros (Hm & Hy) Hc.
  assert (Hcan : ∀ n, snd (TH.can_send_message a y n)
                      = snd (TH.can_send_message b y n)).
  { intros n. unfold TH.can_send_message. rewrite Hm, Hy.
    by destruct (TH.user_last_message b !! y). }
  split.
  - rewrite !th_step_result.
    destruct c as [u n|u n1 n2|u n]; simpl in Hc; subst u.
    + by rewrite Hcan.
    + by rewrite !th_record_message_result, Hcan.
    + unfold TH.time_until_next_allowed. rewrite Hm, Hy.
      by destruct (TH.user_last_message b !! y).
  - split; [by rewrite !th_step_min_interval|].
    rewrite !th_step_state.
    destruct c as [u n|u n1 n2|u n]; simpl in Hc; subst u; try exact Hy.
    rewrite !th_record_message_state, Hcan.
    destruct (snd _); simpl; [by rewrite !lookup_insert_eq|exact Hy].
Qed.

Lemma th_step_frame (y : string) (self : TH.t) (c : TH.call) :
  TH.call_user c ≠ y → TH.agree_on y (fst (TH.step self c)) self.
Proof.
  intros Hc. split; [apply th_step_min_interval|]. by apply th_step_lookup_ne.
Qed.

Lemma th_observe_filter (y : string) (calls : list TH.call) :
  ∀ a b : TH.t,
    TH.agree_on y a b →
    TH.observe a y calls
    = TH.observe b y (filter (fun c => TH.call_user c = y) calls)
    ∧ TH.agree_on y (TH.run a calls)
        (TH.run b (filter (fun c => TH.call_user c = y) calls)).
Proof.
  induction calls as [|c calls IH]; intros a b Hab; [by split|].
  rewrite th_observe_cons, th_run_cons.
  destruct (decide (TH.call_user c = y)) as [Hc|Hc].
  - rewrite filter_cons_True by done. rewrite th_observe_cons, th_run_cons.
    rewrite decide_True by done.
    destruct (th_step_agree y a b c Hab Hc) as [-> Hnext].
    destruct (IH _ _ Hnext) as [-> Hrun]. by split.
  - rewrite filter_cons_False by done.
    apply IH. destruct (th_step_frame y a c Hc) as [H1 H2].
    destruct Hab as [H3 H4]. split; congruence.
Qed.

(** C9.  For both limiters a call made for identity [x] leaves the entry of
    every other identity [y] as it is, and the results of the calls made for
    [y], as well as the entry of [y] at the end, are the same when all calls
    for other identities are left out of the run. *)
Theorem identity_independence (x y : string) :
  x ≠ y →
  (∀ (self : SW.t) (c : SW.call),
     SW.call_user c = x →
     SW.user_messages (fst (SW.step self c)) !! y
     = SW.user_messages self !! y)
  ∧ (∀ (self : TH.t) (c : TH.call),
       TH.call_user c = x →
       TH.user_last_message (fst (TH.step self c)) !! y
       = TH.user_last_message self !! y)
  ∧ (∀ (self : SW.t) (calls : list SW.call),
       let calls_y := filter (fun c => SW.call_user c = y) calls in
       SW.observe self y calls = SW.observe self y calls_y
       ∧ SW.user_messages (SW.run self calls) !! y
         = SW.user_messages (SW.run self calls_y) !! y)
  ∧ (∀ (self : TH.t) (calls : list TH.call),
       let calls_y := filter (fun c => TH.call_user c = y) calls in
       TH.observe self y calls = TH.observe self y calls_y
       ∧ TH.user_last_message (TH.run self calls) !! y
         = TH.user_last_message (TH.run self calls_y) !! y).
Proof.
  intros Hxy. repeat split.
  - intros self c Hc. apply sw_step_lookup_ne. congruence.
  - intros self c Hc. apply th_step_lookup_ne. congruence.
  - by apply sw_observe_filter.
  - by apply sw_observe_filter.
  - by apply th_observe_filter.
  - by apply th_observe_filter.
Qed.

Lemma identity_independence_witness :
  "X" ≠ "Y"
  ∧ SW.observe (SW.init 10 1) "Y"
      [SW.Record_ "X" 0; SW.Record_ "Y" 1; SW.Record_ "X" 2; SW.CanSend "Y" 3]
    = SW.observe (SW.init 10 1) "Y" [SW.Record_ "Y" 1; SW.CanSend "Y" 3]
  ∧ TH.observe (TH.init 10) "Y"
      [TH.Record_ "X" 0 0; TH.Record_ "Y" 1 1; TH.Record_ "X" 2 2;
       TH.CanSend "Y" 3]
    = TH.observe (TH.init 10) "Y" [TH.Record_ "Y" 1 1; TH.CanSend "Y" 3].
Proof.
  assert (Hxy : "X" ≠ "Y") by discriminate.
  split; [exact Hxy|].
  destruct (identity_independence "X" "Y" Hxy) as (_ & _ & Hsw & Hth).
  split.
  - exact (proj1 (Hsw (SW.init 10 1)
                    [SW.Record_ "X" 0; SW.Record_ "Y" 1; SW.Record_ "X" 2;
                     SW.CanSend "Y" 3])).
  - exact (proj1 (Hth (TH.init 10)
                    [TH.Record_ "X" 0 0; TH.Record_ "Y" 1 1;
                     TH.Record_ "X" 2 2; TH.CanSend "Y" 3])).
Defined.

(** ** Throttling: a rejected [record_message] changes nothing *)

Lemma th_record_message_rejected_state
    (self : TH.t) (user_id : string) (check_time store_time : Z) :
  snd (TH.record_message self user_id check_time store_time) = false →
  fst (TH.record_message self user_id check_time store_time) = self.
Proof.
  rewrite th_record_message_result, th_record_message_state.
  by intros ->.
Qed.

(** ** Waiting time against [can_send_message] *)

(** Throttling: the waiting time is positive exactly when sending is
    refused. *)
Lemma th_wait_time_consistency (self : TH.t) (user_id : string) (now : Z) :
  (snd (TH.can_send_message self user_id now) = false →
   0 < snd (TH.time_until_next_allowed self user_id now))
  ∧ (snd (TH.can_send_message self user_id now) = true →
     snd (TH.time_until_next_allowed self user_id now) = 0).
Proof.
  unfold TH.can_send_message, TH.time_until_next_allowed.
  destruct (TH.user_last_message self !! user_id) as [last|]; simpl;
    [|by split].
  split; intros H.
  - apply Z.leb_gt in H. lia.
  - apply Z.leb_le in H. lia.
Qed.

(** Sliding window: [timestamps[0]] is never evaluated on an empty deque. *)
Lemma time_until_next_allowed_total (self : SW.t) (user_id : string) (now : Z) :
  ∃ wait, snd (SW.time_until_next_allowed self user_id now) = Some wait
          ∧ 0 <= wait.
Proof.
  rewrite time_until_next_allowed_result.
  pose proof (pruned_entry_not_empty (now - SW.window_size self)
                (SW.user_messages self !! user_id)) as Hne.
  destruct (SW.pruned_entry _ _) as [l|]; [|by exists 0].
  destruct (_ <? _); [by exists 0|].
  destruct l as [|earliest rest]; [done|].
  eexists. split; [reflexivity|lia].
Qed.

(** Sliding window: when sending is allowed the waiting time is zero. *)
Lemma sw_can_send_true_wait_zero (self : SW.t) (user_id : string) (now : Z) :
  snd (SW.can_send_message self user_id now) = true →
  snd (SW.time_until_next_allowed self user_id now) = Some 0.
Proof.
  rewrite can_send_message_result, time_until_next_allowed_result.
  destruct (SW.pruned_entry _ _) as [l|]; [|done]. by intros ->.
Qed.

(** Sliding window: when sending is refused the waiting time is the age left
    to the earliest kept timestamp, which is zero when that timestamp is
    exactly [window_size] old. *)
Lemma sw_can_send_false_wait (self : SW.t) (user_id : string) (now : Z) :
  snd (SW.can_send_message self user_id now) = false →
  ∃ earliest rest,
    SW.pruned_entry (now - SW.window_size self)
      (SW.user_messages self !! user_id) = Some (earliest :: rest)
    ∧ now - SW.window_size self <= earliest
    ∧ snd (SW.time_until_next_allowed self user_id now)
      = Some (earliest + SW.window_size self - now).
Proof.
  rewrite can_send_message_result, time_until_next_allowed_result.
  pose proof (pruned_entry_not_empty (now - SW.window_size self)
                (SW.user_messages self !! user_id)) as Hne.
  destruct (SW.pruned_entry _ _) as [l|] eqn:E; [|done].
  intros ->. destruct l as [|earliest rest]; [done|].
  exists earliest, rest. split; [reflexivity|].
  assert (Hcut : now - SW.window_size self <= earliest).
  { unfold SW.pruned_entry in E.
    destruct (SW.user_messages self !! user_id) as [l0|]; [|done].
    destruct (SW.popleft_while _ l0) as [|e r] eqn:P; [done|].
    injection E as -> ->. exact (popleft_while_head _ _ _ _ P). }
  split; [exact Hcut|]. f_equal. lia.
Qed.

(** C6.  The claim fails for the sliding window limiter when the earliest
    timestamp is exactly [window_size] old: with [window_size = 10] and
    [max_requests = 1], after [record_message "A"] at time 0, at time 10
    [can_send_message "A"] answers false and [time_until_next_allowed "A"]
    answers 0. *)
Theorem refused_with_zero_wait_at_window_edge :
  let self := SW.run (SW.init 10 1) [SW.Record_ "A" 0] in
  snd (SW.can_send_message self "A" 10) = false
  ∧ snd (SW.time_until_next_allowed self "A" 10) = Some 0.
Proof. split; reflexivity. Qed.

(** ** [can_send_message] and the stored state *)

(** C8 as stated fails: with [window_size = 10] and [max_requests = 1], after
    [record_message "A"] at time 0 the dictionary holds ["A" -> [0]], and
    [can_send_message "A"] at time 11 deletes that entry. *)
Lemma can_send_message_prunes_counterexample :
  let self := SW.run (SW.init 10 1) [SW.Record_ "A" 0] in
  SW.user_messages self !! "A" = Some [0]
  ∧ SW.user_messages (fst (SW.can_send_message self "A" 11)) !! "A" = None
  ∧ SW.user_messages (fst (SW.can_send_message self "A" 11))
    ≠ SW.user_messages self.
Proof.
  intros self.
  assert (H1 : SW.user_messages self !! "A" = Some [0]) by reflexivity.
  assert (H2 : SW.user_messages (fst (SW.can_send_message self "A" 11)) !! "A"
               = None) by reflexivity.
  split; [exact H1|]. split; [exact H2|].
  intros Heq. rewrite Heq, H1 in H2. discriminate.
Qed.

(** C8 (amended).  [ThrottlingRateLimiter.can_send_message] leaves the object
    as it is.  [SlidingWindowRateLimiter.can_send_message] leaves what
    [_cleanup_window] leaves: the configuration and the entries of all other
    identities are as before, and the entry of the queried identity is pruned
    (its leading timestamps below [current_time - window_size] are dropped and
    the entry is deleted when nothing remains). *)
Theorem can_send_message_effect
    (th : TH.t) (sw : SW.t) (user_id : string) (now : Z) :
  fst (TH.can_send_message th user_id now) = th
  ∧ fst (SW.can_send_message sw user_id now)
    = SW._cleanup_window sw user_id now
  ∧ SW.window_size (fst (SW.can_send_message sw user_id now))
    = SW.window_size sw
  ∧ SW.max_requests (fst (SW.can_send_message sw user_id now))
    = SW.max_requests sw
  ∧ ∀ other : string,
      SW.user_messages (fst (SW.can_send_message sw user_id now)) !! other
      = if decide (user_id = other)
        then SW.pruned_entry (now - SW.window_size sw)
               (SW.user_messages sw !! other)
        else SW.user_messages sw !! other.
Proof.
  split; [apply th_can_send_message_state|].
  rewrite can_send_message_state.
  split; [reflexivity|].
  split; [apply cleanup_window_size|].
  split; [apply cleanup_max_requests|].
  intros other. apply cleanup_lookup_any.
Qed.

(** * Further properties of the two limiters *)

(** ** Sliding window: pruning at a later time absorbs earlier pruning *)

Lemma popleft_while_absorb (c c' : Z) (l : list Z) :
  c <= c' →
  SW.popleft_while c' (SW.popleft_while c l) = SW.popleft_while c' l.
Proof.
  intros Hle. induction l as [|a l IH]; [reflexivity|].
  cbn [SW.popleft_while].
  destruct (Z.ltb_spec a c) as [Hlt|Hge]; [|reflexivity].
  rewrite IH. destruct (Z.ltb_spec a c'); [reflexivity|lia].
Qed.

Lemma pruned_entry_absorb (c c' : Z) (entry : option (list Z)) :
  c <= c' →
  SW.pruned_entry c' (SW.pruned_entry c entry) = SW.pruned_entry c' entry.
Proof.
  intros Hle. destruct entry as [l|]; [|reflexivity].
  unfold SW.pruned_entry at 2 3.
  rewrite <- (popleft_while_absorb c c' l Hle).
  destruct (SW.popleft_while c l) as [|x k]; reflexivity.
Qed.

Lemma cleanup_absorb (self : SW.t) (user_id : string) (t t' : Z) :
  t <= t' →
  SW._cleanup_window (SW._cleanup_window self user_id t) user_id t'
  = SW._cleanup_window self user_id t'.
Proof.
  intros Hle. apply sw_eq.
  - by rewrite !cleanup_window_size.
  - by rewrite !cleanup_max_requests.
  - apply map_eq. intros k. rewrite !cleanup_lookup_any, cleanup_window_size.
    case_decide; [|reflexivity]. apply pruned_entry_absorb. lia.
Qed.

(** X1.  [_cleanup_window] at a time [t'] after a [_cleanup_window] for the
    same identity at an earlier or equal time [t] leaves what
    [_cleanup_window] at [t'] alone leaves; in particular it is idempotent. *)
Theorem cleanup_window_absorbs_earlier
    (self : SW.t) (user_id : string) (t t' : Z) :
  t <= t' →
  SW._cleanup_window (SW._cleanup_window self user_id t) user_id t'
  = SW._cleanup_window self user_id t'.
Proof.
  intros Hle. apply sw_eq.
  - by rewrite !cleanup_window_size.
  - by rewrite !cleanup_max_requests.
  - apply map_eq. intros k. rewrite !cleanup_lookup_any, cleanup_window_size.
    case_decide; [|reflexivity]. apply pruned_entry_absorb. lia.
Qed.

Lemma cleanup_window_absorbs_earlier_witness :
  3 <= 12
  ∧ SW._cleanup_window
      (SW._cleanup_window (SW.mk 10 2 {["A" := [1; 4]]}) "A" 3) "A" 12
    = SW._cleanup_window (SW.mk 10 2 {["A" := [1; 4]]}) "A" 12.
Proof.
  split; [lia|].
  apply (cleanup_window_absorbs_earlier
           (SW.mk 10 2 {["A" := [1; 4]]}) "A" 3 12).
  lia.
Defined.

(** X2.  A [can_send_message] or [time_until_next_allowed] call changes
    nothing that a later call for the same identity can see: the later call
    returns the same result and leaves the same object as without it. *)
Theorem peek_does_not_affect_later_call
    (self : SW.t) (user_id : string) (t : Z) (c : SW.call) :
  SW.call_user c = user_id →
  t <= SW.call_time c →
  SW.step (fst (SW.can_send_message self user_id t)) c = SW.step self c
  ∧ SW.step (fst (SW.time_until_next_allowed self user_id t)) c
    = SW.step self c.
Proof.
  intros Hu Ht.
  rewrite can_send_message_state, time_until_next_allowed_state.
  assert (H : SW.step (SW._cleanup_window self user_id t) c = SW.step self c).
  { destruct c as [u n|u n|u n]; simpl in Hu, Ht; subst u; simpl;
      unfold SW.can_send_message, SW.record_message,
        SW.time_until_next_allowed; cbv zeta;
      by rewrite (cleanup_absorb self user_id t n Ht). }
  by split.
Qed.

Lemma peek_does_not_affect_later_call_witness :
  let self := SW.mk 10 1 {["A" := [0]]} in
  SW.call_user (SW.Record_ "A" 11) = "A"
  ∧ 5 <= SW.call_time (SW.Record_ "A" 11)
  ∧ SW.step (fst (SW.can_send_message self "A" 5)) (SW.Record_ "A" 11)
    = SW.step self (SW.Record_ "A" 11).
Proof.
  intros self. split; [reflexivity|]. split; [simpl; lia|].
  apply (peek_does_not_affect_later_call self "A" 5 (SW.Record_ "A" 11));
    [reflexivity|simpl; lia].
Defined.

(** ** Sliding window: expiry *)

Lemma popleft_while_all (cutoff : Z) (l : list Z) :
  Forall (fun e => e < cutoff) l → SW.popleft_while cutoff l = [].
Proof.
  induction 1 as [|e l He _ IH]; [reflexivity|]. simpl.
  destruct (Z.ltb_spec e cutoff); [exact IH|lia].
Qed.

Lemma pruned_entry_all (cutoff : Z) (entry : option (list Z)) :
  Forall (fun e => e < cutoff) (default [] entry) →
  SW.pruned_entry cutoff entry = None.
Proof.
  destruct entry as [l|]; simpl; [|done].
  intros H. by rewrite popleft_while_all.
Qed.

(** X3.  When every timestamp stored for an identity is older than the
    window, each public method deletes the identity's entry before it decides:
    [can_send_message] answers true, [time_until_next_allowed] answers 0, and
    [record_message] accepts exactly when [max_requests] is positive and then
    leaves the single timestamp of the call. *)
Theorem expired_entry_is_forgotten (self : SW.t) (user_id : string) (now : Z) :
  Forall (fun e => e < now - SW.window_size self) (SW.stored self user_id) →
  SW.user_messages (SW._cleanup_window self user_id now) !! user_id = None
  ∧ SW.can_send_message self user_id now
    = (SW._cleanup_window self user_id now, true)
  ∧ SW.time_until_next_allowed self user_id now
    = (SW._cleanup_window self user_id now, Some 0)
  ∧ snd (SW.record_message self user_id now) = (0 <? SW.max_requests self)
  ∧ SW.stored (fst (SW.record_message self user_id now)) user_id
    = if 0 <? SW.max_requests self then [now] else [].
Proof.
  intros Hold. apply pruned_entry_all in Hold.
  assert (Hgone : SW.user_messages (SW._cleanup_window self user_id now)
                    !! user_id = None) by by rewrite cleanup_lookup.
  split; [exact Hgone|].
  split; [unfold SW.can_send_message; cbv zeta; by rewrite Hgone|].
  split; [unfold SW.time_until_next_allowed; cbv zeta; by rewrite Hgone|].
  split.
  - by rewrite record_message_result, Hold.
  - unfold SW.stored. rewrite record_message_lookup, Hold.
    cbn [default from_option id length app]. change (Z.of_nat 0) with 0.
    by destruct (0 <? SW.max_requests self).
Qed.

Lemma expired_entry_is_forgotten_witness :
  let self := SW.mk 10 1 {["A" := [0; 3]]} in
  Forall (fun e => e < 14 - SW.window_size self) (SW.stored self "A")
  ∧ SW.user_messages (SW._cleanup_window self "A" 14) !! "A" = None
  ∧ SW.stored (fst (SW.record_message self "A" 14)) "A" = [14].
Proof.
  intros self.
  assert (H : Forall (fun e => e < 14 - SW.window_size self)
                (SW.stored self "A")).
  { repeat constructor. }
  split; [exact H|].
  destruct (expired_entry_is_forgotten self "A" 14 H) as (H1 & _ & _ & _ & H5).
  split; [exact H1|exact H5].
Defined.

(** X4.  [time_until_next_allowed] never evaluates [timestamps[0]] on an
    empty deque, whatever the dictionary holds (also for an entry whose deque
    is empty), and its result is never negative. *)
Theorem time_until_next_allowed_never_fails
    (self : SW.t) (user_id : string) (now : Z) :
  ∃ wait,
    snd (SW.time_until_next_allowed self user_id now) = Some wait
    ∧ 0 <= wait.
Proof.
  rewrite time_until_next_allowed_result.
  destruct (SW.pruned_entry _ _) as [[|earliest rest]|] eqn:E.
  - by apply pruned_entry_not_empty in E.
  - destruct (_ <? _); eexists; (split; [reflexivity|lia]).
  - by exists 0.
Qed.

(** ** Sliding window: the deques under a clock that never goes back *)

Lemma pruned_entry_suffix (cutoff : Z) (entry : option (list Z)) (l : list Z) :
  SW.pruned_entry cutoff entry = Some l →
  ∃ l0, entry = Some l0 ∧ l `suffix_of` l0.
Proof.
  destruct entry as [l0|]; simpl; [|discriminate].
  intros H. exists l0. split; [reflexivity|].
  pose proof (popleft_while_suffix cutoff l0) as Hs.
  destruct (SW.popleft_while cutoff l0); [discriminate|].
  by injection H as <-.
Qed.

Lemma timeline_suffix (now now' : Z) (l l0 : list Z) :
  now <= now' → l `suffix_of` l0 →
  StronglySorted Z.le l0 ∧ Forall (fun e => e <= now) l0 →
  StronglySorted Z.le l ∧ Forall (fun e => e <= now') l.
Proof.
  intros Hle [k ->] [Hs Hf]. split.
  - by apply StronglySorted_app_1_r in Hs.
  - apply Forall_app in Hf as [_ Hf].
    eapply Forall_impl; [exact Hf|]. simpl. intros; lia.
Qed.

Lemma timeline_snoc (now : Z) (l : list Z) :
  StronglySorted Z.le l ∧ Forall (fun e => e <= now) l →
  StronglySorted Z.le (l ++ [now]) ∧ Forall (fun e => e <= now) (l ++ [now]).
Proof.
  intros [Hs Hf]. split.
  - apply StronglySorted_app_2; [|exact Hs|repeat constructor].
    intros x1 x2 H1 ->%list_elem_of_singleton.
    by apply (proj1 (Forall_forall _ _) Hf).
  - apply Forall_app. split; [exact Hf|]. by repeat constructor.
Qed.

Lemma sw_step_timeline (now : Z) (self : SW.t) (c : SW.call) :
  now <= SW.call_time c →
  SW.timeline now self →
  SW.timeline (SW.call_time c) (fst (SW.step self c)).
Proof.
  intros Hnow Hinv.
  assert (Hkept : ∀ u n l,
             SW.pruned_entry (n - SW.window_size self)
               (SW.user_messages self !! u) = Some l →
             StronglySorted Z.le l
             ∧ Forall (fun e => e <= SW.call_time c) l).
  { intros u n l (l0 & Hl0 & Hs)%pruned_entry_suffix.
    apply (timeline_suffix now _ l l0); [lia|exact Hs|]. by apply (Hinv u). }
  assert (Hother : ∀ k l,
             SW.user_messages self !! k = Some l →
             StronglySorted Z.le l
             ∧ Forall (fun e => e <= SW.call_time c) l).
  { intros k l Hk. apply (timeline_suffix now _ l l); [lia|done|].
    by apply (Hinv k). }
  rewrite sw_step_state. intros k l.
  destruct c as [u n|u n|u n]; simpl in *.
  - rewrite cleanup_lookup_any. case_decide; [subst k; apply Hkept|apply Hother].
  - destruct (decide (u = k)) as [<-|Hne];
      [|rewrite record_message_lookup_ne by done; apply Hother].
    rewrite record_message_lookup.
    destruct (SW.pruned_entry _ _) as [l1|] eqn:E;
      cbn [default from_option id].
    + specialize (Hkept _ _ _ E).
      destruct (_ <? _); intros [= <-]; [by apply timeline_snoc|exact Hkept].
    + destruct (_ <? _); intros [= <-]; simpl; repeat constructor; lia.
  - rewrite cleanup_lookup_any. case_decide; [subst k; apply Hkept|apply Hother].
Qed.

Lemma sw_run_timeline (calls : list SW.call) :
  ∀ (now : Z) (self : SW.t),
    SW.chronological now calls →
    SW.timeline now self →
    SW.timeline (SW.clock_after now calls) (SW.run self calls).
Proof.
  induction calls as [|c calls IH]; intros now self Hchron Hinv; [exact Hinv|].
  destruct Hchron as [Hnow Hrest].
  rewrite sw_run_cons. unfold SW.clock_after. simpl.
  apply IH; [exact Hrest|]. by apply (sw_step_timeline now).
Qed.

Lemma sw_reachable_timeline (w m now : Z) (calls : list SW.call) :
  SW.chronological now calls →
  SW.timeline (SW.clock_after now calls) (SW.run (SW.init w m) calls).
Proof.
  intros Hchron. apply sw_run_timeline; [exact Hchron|].
  intros k l. simpl. by rewrite lookup_empty.
Qed.

Lemma timeline_stored (now : Z) (self : SW.t) (user_id : string) :
  SW.timeline now self →
  StronglySorted Z.le (SW.stored self user_id)
  ∧ Forall (fun e => e <= now) (SW.stored self user_id).
Proof.
  intros Hinv. unfold SW.stored.
  destruct (SW.user_messages self !! user_id) as [l|] eqn:E;
    [by apply (Hinv user_id)|].
  simpl. split; constructor.
Qed.

Lemma popleft_while_sorted_bound (cutoff : Z) (l : list Z) :
  StronglySorted Z.le l →
  Forall (fun e => cutoff <= e) (SW.popleft_while cutoff l).
Proof.
  induction 1 as [|a l Hs IH Ha]; simpl; [constructor|].
  destruct (Z.ltb_spec a cutoff) as [Hlt|Hge]; [exact IH|].
  constructor; [exact Hge|].
  eapply Forall_impl; [exact Ha|]. simpl. intros; lia.
Qed.

(** X5.  With [window_size >= 0] and a clock that never goes back, after a
    call for an identity at time [t] the identity's deque is in time order
    and all its timestamps lie in [[t - window_size, t]]. *)
Theorem retained_timestamps_within_window
    (w m now : Z) (calls : list SW.call) (c : SW.call) :
  0 <= w →
  SW.chronological now calls →
  SW.clock_after now calls <= SW.call_time c →
  let after := fst (SW.step (SW.run (SW.init w m) calls) c) in
  StronglySorted Z.le (SW.stored after (SW.call_user c))
  ∧ Forall (fun e => SW.call_time c - w <= e ∧ e <= SW.call_time c)
      (SW.stored after (SW.call_user c)).
Proof.
  intros Hw Hchron Hclock after.
  pose proof (sw_reachable_timeline w m now calls Hchron) as Hinv.
  pose proof (timeline_stored _ _ (SW.call_user c) Hinv) as [Hsorted _].
  pose proof (sw_step_timeline _ _ c Hclock Hinv) as Hafter.
  apply (timeline_stored _ _ (SW.call_user c)) in Hafter as [Hs Hf].
  fold after in Hs, Hf. split; [exact Hs|].
  apply Forall_and. split; [|exact Hf].
  pose proof (popleft_while_sorted_bound (SW.call_time c - w) _ Hsorted)
    as Hkept.
  unfold after. rewrite sw_step_state.
  destruct c as [u n|u n|u n]; simpl in *.
  - rewrite stored_cleanup, decide_True by done.
    by rewrite sw_run_window_size.
  - rewrite stored_record_message, decide_True by done.
    rewrite sw_run_window_size. simpl.
    apply Forall_app. split; [exact Hkept|].
    destruct (snd _); repeat constructor. lia.
  - rewrite stored_cleanup, decide_True by done.
    by rewrite sw_run_window_size.
Qed.

Lemma retained_timestamps_within_window_witness :
  let calls := [SW.Record_ "A" 0; SW.Record_ "A" 4; SW.Record_ "B" 6] in
  0 <= 10
  ∧ SW.chronological 0 calls
  ∧ SW.clock_after 0 calls <= SW.call_time (SW.Record_ "A" 12)
  ∧ SW.stored (fst (SW.step (SW.run (SW.init 10 3) calls)
                      (SW.Record_ "A" 12))) "A" = [4; 12]
  ∧ Forall (fun e => 12 - 10 <= e ∧ e <= 12)
      (SW.stored (fst (SW.step (SW.run (SW.init 10 3) calls)
                         (SW.Record_ "A" 12))) "A").
Proof.
  intros calls. split; [lia|]. split; [simpl; lia|]. split; [simpl; lia|].
  split; [reflexivity|].
  apply (retained_timestamps_within_window 10 3 0 calls (SW.Record_ "A" 12));
    simpl; lia.
Defined.

(** X6.  With a negative [window_size] and a clock that never goes back the
    limiter never limits: every stored timestamp is already below the cutoff,
    so [can_send_message] answers true, [time_until_next_allowed] answers 0 and
    [record_message] accepts whenever [max_requests] is positive. *)
Theorem negative_window_never_limits
    (w m now : Z) (calls : list SW.call) (user_id : string) (t : Z) :
  w < 0 →
  SW.chronological now calls →
  SW.clock_after now calls <= t →
  snd (SW.can_send_message (SW.run (SW.init w m) calls) user_id t) = true
  ∧ snd (SW.time_until_next_allowed (SW.run (SW.init w m) calls) user_id t)
    = Some 0
  ∧ snd (SW.record_message (SW.run (SW.init w m) calls) user_id t)
    = (0 <? m).
Proof.
  intros Hw Hchron Hclock.
  pose proof (sw_reachable_timeline w m now calls Hchron) as Hinv.
  apply (timeline_stored _ _ user_id) in Hinv as [_ Hf].
  assert (Hold : SW.pruned_entry
                   (t - SW.window_size (SW.run (SW.init w m) calls))
                   (SW.user_messages (SW.run (SW.init w m) calls) !! user_id)
                 = None).
  { apply pruned_entry_all. rewrite sw_run_window_size. simpl.
    eapply Forall_impl; [exact Hf|]. simpl. intros; lia. }
  rewrite can_send_message_result, time_until_next_allowed_result,
    record_message_result, Hold, sw_run_max_requests.
  by repeat split.
Qed.

Lemma negative_window_never_limits_witness :
  let calls := [SW.Record_ "A" 0; SW.Record_ "A" 0; SW.Record_ "A" 1] in
  -1 < 0
  ∧ SW.chronological 0 calls
  ∧ SW.clock_after 0 calls <= 1
  ∧ SW.observe (SW.init (-1) 1) "A" calls
    = [SW.RBool true; SW.RBool true; SW.RBool true]
  ∧ snd (SW.record_message (SW.run (SW.init (-1) 1) calls) "A" 1) = true.
Proof.
  intros calls. split; [lia|]. split; [simpl; lia|]. split; [simpl; lia|].
  split; [reflexivity|].
  apply (negative_window_never_limits (-1) 1 0 calls "A" 1); simpl; lia.
Defined.

(** ** Sliding window: what the deques hold *)

(** X8.  With [max_requests >= 0] no deque ever holds more than
    [max_requests] timestamps, in whatever order and at whatever clock
    readings the calls are made. *)
Theorem deque_never_longer_than_cap
    (w m : Z) (calls : list SW.call) (user_id : string) :
  0 <= m →
  Z.of_nat (length (SW.stored (SW.run (SW.init w m) calls) user_id)) <= m.
Proof.
  intros Hm. pose proof (sw_run_within_cap w m calls Hm) as Hcap.
  unfold SW.stored.
  destruct (SW.user_messages (SW.run (SW.init w m) calls) !! user_id)
    as [l|] eqn:E; simpl; [|lia].
  specialize (Hcap _ _ E). by rewrite sw_run_max_requests in Hcap.
Qed.

Lemma deque_never_longer_than_cap_witness :
  let calls := [SW.Record_ "A" 9; SW.Record_ "A" 2; SW.Record_ "A" 30;
                SW.Record_ "A" 1] in
  0 <= 2
  ∧ SW.stored (SW.run (SW.init 10 2) calls) "A" = [30; 1]
  ∧ Z.of_nat (length (SW.stored (SW.run (SW.init 10 2) calls) "A")) <= 2.
Proof.
  intros calls. split; [lia|]. split; [reflexivity|].
  apply (deque_never_longer_than_cap 10 2 calls "A"). lia.
Defined.

Lemma sw_step_stored_suffix (self : SW.t) (user_id : string) (c : SW.call)
    (log : list Z) :
  SW.stored self user_id `suffix_of` log →
  SW.stored (fst (SW.step self c)) user_id
    `suffix_of` log ++ SW.accepted_by self user_id c.
Proof.
  intros Hs. rewrite sw_step_state.
  assert (Hkept : ∀ n,
             SW.popleft_while (n - SW.window_size self)
               (SW.stored self user_id) `suffix_of` log).
  { intros n. etrans; [apply popleft_while_suffix|exact Hs]. }
  destruct c as [u n|u n|u n]; simpl.
  - rewrite app_nil_r, stored_cleanup. case_decide; [apply Hkept|exact Hs].
  - rewrite stored_record_message.
    destruct (decide (u = user_id)) as [->|Hne].
    + destruct (snd _); [by apply suffix_app|].
      rewrite !app_nil_r. apply Hkept.
    + destruct (snd _); by rewrite app_nil_r.
  - rewrite app_nil_r, stored_cleanup. case_decide; [apply Hkept|exact Hs].
Qed.

Lemma sw_run_stored_suffix (user_id : string) (calls : list SW.call) :
  ∀ (self : SW.t) (log : list Z),
    SW.stored self user_id `suffix_of` log →
    SW.stored (SW.run self calls) user_id
      `suffix_of` log ++ SW.accepted self user_id calls.
Proof.
  induction calls as [|c calls IH]; intros self log Hs.
  { simpl. by rewrite app_nil_r. }
  cbn [SW.accepted]. rewrite app_assoc, sw_run_cons.
  apply IH. by apply sw_step_stored_suffix.
Qed.

(** X9.  The deque of an identity is always the end of the list of
    timestamps accepted for it: every stored timestamp was put there by an
    accepted [record_message] for that identity, in the order of the calls,
    and timestamps are only ever removed from the front. *)
Theorem stored_is_end_of_accepted
    (w m : Z) (calls : list SW.call) (user_id : string) :
  SW.stored (SW.run (SW.init w m) calls) user_id
    `suffix_of` SW.accepted (SW.init w m) user_id calls.
Proof.
  apply (sw_run_stored_suffix user_id calls (SW.init w m) []).
  unfold SW.stored. simpl. by rewrite lookup_empty.
Qed.

(** ** Sliding window: a burst of requests *)

Lemma take_snoc_cap (n : nat) (done : list Z) (t : Z) :
  take n (done ++ [t])
  = take n done ++ (if (length (take n done) <? n)%nat then [t] else []).
Proof.
  rewrite take_app, length_take.
  destruct (Nat.ltb_spec (n `min` length done) n) as [Hlt|Hge].
  - f_equal. destruct (n - length done)%nat eqn:E; [lia|].
    simpl. by rewrite take_nil.
  - replace (n - length done)%nat with 0%nat by lia. reflexivity.
Qed.

Lemma burst_from (w m : Z) (user_id : string) (t0 : Z) (times : list Z) :
  ∀ (self : SW.t) (done : list Z),
    SW.window_size self = w → SW.max_requests self = m → 0 <= m →
    SW.stored self user_id = take (Z.to_nat m) done →
    (∀ e, head (done ++ times) = Some e → e = t0) →
    Forall (fun t => t - w <= t0) times →
    SW.stored (SW.run self (SW.Record_ user_id <$> times)) user_id
    = take (Z.to_nat m) (done ++ times)
    ∧ take (Z.to_nat m) done
      ++ SW.accepted self user_id (SW.Record_ user_id <$> times)
      = take (Z.to_nat m) (done ++ times).
Proof.
  induction times as [|t times IH];
    intros self done Hw Hm Hm0 Hst Hhead Hall.
  { simpl. by rewrite !app_nil_r. }
  apply Forall_cons in Hall as [Ht Hall].
  assert (Hkept : SW.popleft_while (t - SW.window_size self)
                    (SW.stored self user_id) = SW.stored self user_id).
  { apply popleft_while_fixed. rewrite Hst, Hw.
    destruct done as [|d done]; [by rewrite take_nil|].
    destruct (Z.to_nat m); [exact I|]. simpl.
    rewrite (Hhead d eq_refl). lia. }
  assert (Hok : snd (SW.record_message self user_id t)
                = (length (take (Z.to_nat m) done) <? Z.to_nat m)%nat).
  { rewrite record_message_accepts, Hkept, Hst, Hm.
    destruct (Z.ltb_spec (Z.of_nat (length (take (Z.to_nat m) done))) m),
      (Nat.ltb_spec (length (take (Z.to_nat m) done)) (Z.to_nat m));
      (reflexivity || lia). }
  rewrite fmap_cons, sw_run_cons. cbn [SW.accepted SW.accepted_by].
  rewrite decide_True by done.
  specialize (IH (fst (SW.step self (SW.Record_ user_id t))) (done ++ [t])).
  rewrite sw_step_window_size, sw_step_max_requests in IH.
  rewrite <- !app_assoc in IH. cbn [app] in IH.
  destruct IH as [IH1 IH2]; try done.
  { rewrite sw_step_state, stored_record_message, decide_True by done.
    rewrite Hkept, Hst, Hok. symmetry. apply take_snoc_cap. }
  split; [exact IH1|].
  rewrite <- IH2, take_snoc_cap, Hok, <- app_assoc.
  by destruct (_ <? _)%nat.
Qed.

(** X10.  On a new limiter with [max_requests >= 0], a run of
    [record_message] calls for one identity that all fall within
    [window_size] of the first one accepts exactly the first [max_requests]
    of them and rejects the rest: the deque then holds the timestamps of
    those first calls, and so does the list of accepted timestamps. *)
Theorem burst_fills_to_cap
    (w m : Z) (user_id : string) (t0 : Z) (rest : list Z) :
  0 <= m →
  Forall (fun t => t - w <= t0) (t0 :: rest) →
  SW.stored (SW.run (SW.init w m) (SW.Record_ user_id <$> (t0 :: rest))) user_id
  = take (Z.to_nat m) (t0 :: rest)
  ∧ SW.accepted (SW.init w m) user_id (SW.Record_ user_id <$> (t0 :: rest))
    = take (Z.to_nat m) (t0 :: rest).
Proof.
  intros Hm Hall.
  destruct (burst_from w m user_id t0 (t0 :: rest) (SW.init w m) [])
    as [H1 H2]; try done.
  - unfold SW.stored. simpl. by rewrite lookup_empty, take_nil.
  - simpl. by intros e [= <-].
  - split; [exact H1|]. by rewrite take_nil in H2.
Qed.

Lemma burst_fills_to_cap_witness :
  0 <= 2
  ∧ Forall (fun t => t - 10 <= 3) [3; 5; 8; 13]
  ∧ SW.observe (SW.init 10 2) "A" (SW.Record_ "A" <$> [3; 5; 8; 13])
    = [SW.RBool true; SW.RBool true; SW.RBool false; SW.RBool false]
  ∧ SW.stored (SW.run (SW.init 10 2) (SW.Record_ "A" <$> [3; 5; 8; 13])) "A"
    = take (Z.to_nat 2) [3; 5; 8; 13].
Proof.
  assert (H : Forall (fun t => t - 10 <= 3) [3; 5; 8; 13]).
  { repeat constructor; lia. }
  split; [lia|]. split; [exact H|]. split; [reflexivity|].
  apply (burst_fills_to_cap 10 2 "A" 3 [5; 8; 13]); [lia|exact H].
Defined.

(** ** First use of an identity *)

Lemma sw_run_lookup_ne (user_id : string) (calls : list SW.call) :
  ∀ self : SW.t,
    Forall (fun c => SW.call_user c ≠ user_id) calls →
    SW.user_messages (SW.run self calls) !! user_id
    = SW.user_messages self !! user_id.
Proof.
  induction calls as [|c calls IH]; intros self Hall; [reflexivity|].
  apply Forall_cons in Hall as [Hc Hall].
  rewrite sw_run_cons, IH by done. by apply sw_step_lookup_ne.
Qed.

(** X12.  Sliding window: an identity for which no call was made yet has no
    entry, however many calls were made for other identities; for it
    [can_send_message] answers true, [time_until_next_allowed] answers 0, and
    [record_message] accepts exactly when [max_requests] is positive. *)
Theorem sliding_window_first_use
    (w m : Z) (calls : list SW.call) (user_id : string) (t : Z) :
  Forall (fun c => SW.call_user c ≠ user_id) calls →
  SW.user_messages (SW.run (SW.init w m) calls) !! user_id = None
  ∧ snd (SW.can_send_message (SW.run (SW.init w m) calls) user_id t) = true
  ∧ snd (SW.time_until_next_allowed (SW.run (SW.init w m) calls) user_id t)
    = Some 0
  ∧ snd (SW.record_message (SW.run (SW.init w m) calls) user_id t)
    = (0 <? m).
Proof.
  intros Hall.
  assert (Hnone : SW.user_messages (SW.run (SW.init w m) calls) !! user_id
                  = None).
  { rewrite sw_run_lookup_ne by done. simpl. apply lookup_empty. }
  rewrite can_send_message_result, time_until_next_allowed_result,
    record_message_result, Hnone, sw_run_max_requests.
  by repeat split.
Qed.

Lemma sliding_window_first_use_witness :
  let calls := [SW.Record_ "X" 0; SW.Record_ "X" 1; SW.CanSend "Y" 1] in
  Forall (fun c => SW.call_user c ≠ "Z") calls
  ∧ snd (SW.record_message (SW.run (SW.init 10 1) calls) "Z" 1) = true.
Proof.
  intros calls.
  assert (H : Forall (fun c => SW.call_user c ≠ "Z") calls).
  { repeat constructor; discriminate. }
  split; [exact H|].
  exact (proj2 (proj2 (proj2 (sliding_window_first_use 10 1 calls "Z" 1 H)))).
Defined.

Lemma th_run_lookup_ne (user_id : string) (calls : list TH.call) :
  ∀ self : TH.t,
    Forall (fun c => TH.call_user c ≠ user_id) calls →
    TH.user_last_message (TH.run self calls) !! user_id
    = TH.user_last_message self !! user_id.
Proof.
  induction calls as [|c calls IH]; intros self Hall; [reflexivity|].
  apply Forall_cons in Hall as [Hc Hall].
  rewrite th_run_cons, IH by done. by apply th_step_lookup_ne.
Qed.

(** X13.  Throttling: an identity for which no call was made yet has no
    entry, however many calls were made for other identities and whatever
    [min_interval] is; its first [record_message] is accepted and stores the
    second clock reading of the call, and [time_until_next_allowed] answers
    0. *)
Theorem throttling_first_use
    (m : Z) (calls : list TH.call) (user_id : string) (t1 t2 : Z) :
  Forall (fun c => TH.call_user c ≠ user_id) calls →
  snd (TH.can_send_message (TH.run (TH.init m) calls) user_id t1) = true
  ∧ snd (TH.time_until_next_allowed (TH.run (TH.init m) calls) user_id t1) = 0
  ∧ snd (TH.record_message (TH.run (TH.init m) calls) user_id t1 t2) = true
  ∧ TH.user_last_message
      (fst (TH.record_message (TH.run (TH.init m) calls) user_id t1 t2))
      !! user_id = Some t2.
Proof.
  intros Hall.
  assert (Hnone : TH.user_last_message (TH.run (TH.init m) calls) !! user_id
                  = None).
  { rewrite th_run_lookup_ne by done. simpl. apply lookup_empty. }
  assert (Hok : snd (TH.can_send_message (TH.run (TH.init m) calls) user_id t1)
                = true).
  { unfold TH.can_send_message. by rewrite Hnone. }
  split; [exact Hok|].
  split; [unfold TH.time_until_next_allowed; by rewrite Hnone|].
  rewrite th_record_message_result, th_record_message_state, Hok. simpl.
  split; [reflexivity|apply lookup_insert_eq].
Qed.

Lemma throttling_first_use_witness :
  let calls := [TH.Record_ "X" 0 0; TH.Record_ "X" 1 1; TH.CanSend "Y" 1] in
  Forall (fun c => TH.call_user c ≠ "Z") calls
  ∧ snd (TH.record_message (TH.run (TH.init 10) calls) "Z" 1 1) = true.
Proof.
  intros calls.
  assert (H : Forall (fun c => TH.call_user c ≠ "Z") calls).
  { repeat constructor; discriminate. }
  split; [exact H|].
  exact (proj1 (proj2 (proj2 (throttling_first_use 10 calls "Z" 1 1 H)))).
Defined.

(** ** Throttling: what the dictionary holds *)

Lemma th_step_lookup_is_Some (self : TH.t) (c : TH.call) (user_id : string) :
  is_Some (TH.user_last_message self !! user_id) →
  is_Some (TH.user_last_message (fst (TH.step self c)) !! user_id).
Proof.
  intros Hin. rewrite th_step_state.
  destruct c as [u n|u n1 n2|u n]; try exact Hin.
  rewrite th_record_message_state. destruct (snd _); [|exact Hin].
  simpl. destruct (decide (u = user_id)) as [->|Hne].
  - rewrite lookup_insert_eq. by eexists.
  - by rewrite lookup_insert_ne.
Qed.

(** X15.  Throttling never forgets an identity: an identity that has an entry
    still has one after any further calls. *)
Theorem throttling_entry_is_never_removed
    (self : TH.t) (calls : list TH.call) (user_id : string) :
  is_Some (TH.user_last_message self !! user_id) →
  is_Some (TH.user_last_message (TH.run self calls) !! user_id).
Proof.
  revert self. induction calls as [|c calls IH]; intros self Hin; [exact Hin|].
  rewrite th_run_cons. by apply IH, th_step_lookup_is_Some.
Qed.

Lemma throttling_entry_is_never_removed_witness :
  let self := TH.mk 10 {["B" := 0]} in
  let calls := [TH.CanSend "B" 500; TH.Record_ "C" 600 600;
                TH.TimeUntil "B" 700] in
  is_Some (TH.user_last_message self !! "B")
  ∧ is_Some (TH.user_last_message (TH.run self calls) !! "B").
Proof.
  intros self calls.
  assert (H : is_Some (TH.user_last_message self !! "B")) by by eexists.
  split; [exact H|].
  exact (throttling_entry_is_never_removed self calls "B" H).
Defined.

Lemma th_run_lookup_last (user_id : string) (calls : list TH.call) :
  ∀ self : TH.t,
    TH.user_last_message (TH.run self calls) !! user_id
    = match last (TH.accepted self user_id calls) with
      | Some t => Some t
      | None => TH.user_last_message self !! user_id
      end.
Proof.
  induction calls as [|c calls IH]; intros self; [reflexivity|].
  rewrite th_run_cons, IH, accepted_cons.
  remember (TH.accepted (fst (TH.step self c)) user_id calls) as acc.
  rewrite th_step_state.
  destruct c as [u n|u n1 n2|u n]; try reflexivity.
  rewrite th_record_message_state.
  destruct (snd (TH.can_send_message self u n1)); [|reflexivity].
  simpl. destruct (decide (u = user_id)) as [->|Hne].
  - rewrite lookup_insert_eq, last_cons. by destruct (last acc).
  - by rewrite lookup_insert_ne.
Qed.

(** X16.  Throttling: after any calls on a new limiter the entry of an
    identity is the timestamp stored by its last accepted [record_message],
    and there is no entry when none was accepted. *)
Theorem throttling_entry_is_last_accepted
    (m : Z) (calls : list TH.call) (user_id : string) :
  TH.user_last_message (TH.run (TH.init m) calls) !! user_id
  = last (TH.accepted (TH.init m) user_id calls).
Proof.
  rewrite th_run_lookup_last. simpl. rewrite lookup_empty.
  by destruct (last _).
Qed.

(** X18.  Throttling: [time_until_next_allowed] never answers a negative
    wait, and under a clock that never goes back the wait is at most
    [max(min_interval, 0)]. *)
Theorem throttling_wait_at_most_interval
    (m now : Z) (calls : list TH.call) (user_id : string) (t : Z) :
  TH.chronological now calls →
  TH.clock_after now calls <= t →
  0 <= snd (TH.time_until_next_allowed (TH.run (TH.init m) calls) user_id t)
    <= Z.max m 0.
Proof.
  intros Hchron Hclock.
  assert (Hinv : TH.not_after (TH.clock_after now calls)
                   (TH.run (TH.init m) calls)).
  { apply th_run_not_after; [exact Hchron|].
    intros k last. simpl. by rewrite lookup_empty. }
  unfold TH.time_until_next_allowed.
  destruct (TH.user_last_message (TH.run (TH.init m) calls) !! user_id)
    as [last|] eqn:E; simpl; [|lia].
  specialize (Hinv _ _ E). rewrite th_run_min_interval. simpl. lia.
Qed.

Lemma throttling_wait_at_most_interval_witness :
  let calls := [TH.Record_ "B" 0 1; TH.Record_ "B" 4 4] in
  TH.chronological 0 calls
  ∧ TH.clock_after 0 calls <= 5
  ∧ snd (TH.time_until_next_allowed (TH.run (TH.init 10) calls) "B" 5) = 6
  ∧ 0 <= snd (TH.time_until_next_allowed (TH.run (TH.init 10) calls) "B" 5)
      <= Z.max 10 0.
Proof.
  intros calls. split; [simpl; lia|]. split; [simpl; lia|].
  split; [reflexivity|].
  apply (throttling_wait_at_most_interval 10 0 calls "B" 5); simpl; lia.
Defined.

(** ** [demo_scenario] of the sliding window limiter *)

Lemma sw_demo_round_new (limiter : SW.t) (clock : nat → Z) (reads : nat)
    (message_id : Z) :
  let user_id := message_id `mod` 5 + 1 in
  0 < SW.max_requests limiter →
  SW.user_messages limiter !! pretty user_id = None →
  ∃ limiter',
    SW.demo_round limiter clock reads message_id
    = Some (limiter', SW.mk_row message_id user_id SW.Sent)
    ∧ SW.max_requests limiter' = SW.max_requests limiter
    ∧ ∀ other, other ≠ pretty user_id →
        SW.user_messages limiter' !! other = SW.user_messages limiter !! other.
Proof.
  intros user_id Hmax Hnone. unfold SW.demo_round. fold user_id.
  pose proof (record_message_result limiter (pretty user_id) (clock reads))
    as Hres.
  pose proof (record_message_max_requests limiter (pretty user_id)
                (clock reads)) as Hm.
  pose proof (record_message_lookup_ne limiter (pretty user_id)
                (clock reads)) as Hf.
  rewrite Hnone in Hres. simpl in Hres.
  destruct (SW.record_message limiter (pretty user_id) (clock reads))
    as [limiter1 can_send].
  simpl in Hres, Hm, Hf. subst can_send.
  destruct (Z.ltb_spec (Z.of_nat 0) (SW.max_requests limiter)) as [_|H0];
    [|simpl in H0; lia].
  destruct (time_until_next_allowed_total limiter1 (pretty user_id)
              (clock (S reads))) as (wait & Hwait & _).
  pose proof (time_until_next_allowed_state limiter1 (pretty user_id)
                (clock (S reads))) as Hst.
  destruct (SW.time_until_next_allowed limiter1 (pretty user_id)
              (clock (S reads))) as [limiter2 w].
  simpl in Hwait, Hst. subst w limiter2.
  eexists. split; [reflexivity|]. split.
  - by rewrite cleanup_max_requests.
  - intros other Hother. rewrite cleanup_lookup_ne by done. by apply Hf.
Qed.

Lemma sw_demo_series_cons (limiter : SW.t) (clock : nat → Z) (reads : nat)
    (message_id : Z) (rest : list Z) :
  SW.demo_series limiter clock reads (message_id :: rest)
  = match SW.demo_round limiter clock reads message_id with
    | None => None
    | Some (limiter, r) =>
        match SW.demo_series limiter clock (S (S reads)) rest with
        | None => None
        | Some (limiter, reads, rows) => Some (limiter, reads, r :: rows)
        end
    end.
Proof. reflexivity. Qed.

Lemma sw_demo_series_runs (clock : nat → Z) (message_ids : list Z) :
  ∀ (limiter : SW.t) (reads : nat),
    ∃ limiter' rows,
      SW.demo_series limiter clock reads message_ids
      = Some (limiter', (reads + 2 * length message_ids)%nat, rows)
      ∧ SW.row_message <$> rows = message_ids
      ∧ Forall (fun r => SW.row_user r = SW.row_message r `mod` 5 + 1) rows.
Proof.
  induction message_ids as [|message_id rest IH]; intros limiter reads.
  { exists limiter, []. simpl. by rewrite Nat.add_0_r. }
  cbn [SW.demo_series]. unfold SW.demo_round.
  destruct (SW.record_message limiter _ _) as [limiter1 can_send].
  destruct (time_until_next_allowed_total limiter1
              (pretty (message_id `mod` 5 + 1)) (clock (S reads)))
    as (wait & Hwait & _).
  destruct (SW.time_until_next_allowed limiter1 _ _) as [limiter2 w].
  simpl in Hwait. subst w.
  destruct (IH limiter2 (S (S reads))) as (limiter' & rows & -> & Hids & Hus).
  replace (reads + 2 * length (message_id :: rest))%nat
    with (S (S reads) + 2 * length rest)%nat by (simpl; lia).
  eexists _, _. split; [reflexivity|]. split.
  - by rewrite fmap_cons, Hids.
  - by constructor.
Qed.

(** X19.  The sliding window [demo_scenario] never ends in an [IndexError],
    whatever the clock readings are: it prints one row for each of the
    messages 1 to 20, in order, each for the user [message_id % 5 + 1], a
    number between 1 and 5. *)
Theorem sliding_window_demo_prints_every_message (clock : nat → Z) :
  ∃ rows,
    SW.demo_scenario clock = Some rows
    ∧ SW.row_message <$> rows = seqZ 1 20
    ∧ Forall (fun r => SW.row_user r = SW.row_message r `mod` 5 + 1
                       ∧ 1 <= SW.row_user r <= 5) rows.
Proof.
  unfold SW.demo_scenario. cbv zeta.
  destruct (sw_demo_series_runs clock (seqZ 1 10) (SW.init 10 1) 0)
    as (limiter1 & rows1 & -> & Hids1 & Hus1).
  destruct (sw_demo_series_runs clock (seqZ 11 10) limiter1
              (0 + 2 * length (seqZ 1 10)))
    as (limiter2 & rows2 & -> & Hids2 & Hus2).
  exists (rows1 ++ rows2). split; [reflexivity|]. split.
  - by rewrite fmap_app, Hids1, Hids2.
  - apply Forall_app. split.
    + eapply Forall_impl; [exact Hus1|]. simpl. intros r ->.
      split; [reflexivity|]. pose proof (Z.mod_pos_bound (SW.row_message r) 5).
      lia.
    + eapply Forall_impl; [exact Hus2|]. simpl. intros r ->.
      split; [reflexivity|]. pose proof (Z.mod_pos_bound (SW.row_message r) 5).
      lia.
Qed.

(** X20.  Whatever the clock readings are, the sliding window
    [demo_scenario] accepts the messages 1 to 5, which are the first messages
    of the users 2, 3, 4, 5 and 1, and then prints the rows of the messages 6
    to 20. *)
Theorem sliding_window_demo_first_messages_sent (clock : nat → Z) :
  ∃ rows,
    SW.demo_scenario clock
    = Some ([SW.mk_row 1 2 SW.Sent; SW.mk_row 2 3 SW.Sent;
             SW.mk_row 3 4 SW.Sent; SW.mk_row 4 5 SW.Sent;
             SW.mk_row 5 1 SW.Sent] ++ rows)
    ∧ SW.row_message <$> rows = seqZ 6 15.
Proof.
  unfold SW.demo_scenario. cbv zeta.
  change (seqZ 1 10) with [1; 2; 3; 4; 5; 6; 7; 8; 9; 10].
  rewrite sw_demo_series_cons.
  destruct (sw_demo_round_new (SW.init 10 1) clock 0 1)
    as (s1 & -> & Hm1 & Hf1); [reflexivity|reflexivity|].
  cbv beta iota. rewrite sw_demo_series_cons.
  destruct (sw_demo_round_new s1 clock 2 2)
    as (s2 & -> & Hm2 & Hf2);
    [by rewrite Hm1|by rewrite Hf1 by (vm_compute; discriminate)|].
  cbv beta iota. rewrite sw_demo_series_cons.
  destruct (sw_demo_round_new s2 clock 4 3)
    as (s3 & -> & Hm3 & Hf3);
    [by rewrite Hm2, Hm1
    |by rewrite Hf2, Hf1 by (vm_compute; discriminate)|].
  cbv beta iota. rewrite sw_demo_series_cons.
  destruct (sw_demo_round_new s3 clock 6 4)
    as (s4 & -> & Hm4 & Hf4);
    [by rewrite Hm3, Hm2, Hm1
    |by rewrite Hf3, Hf2, Hf1 by (vm_compute; discriminate)|].
  cbv beta iota. rewrite sw_demo_series_cons.
  destruct (sw_demo_round_new s4 clock 8 5)
    as (s5 & -> & Hm5 & Hf5);
    [by rewrite Hm4, Hm3, Hm2, Hm1
    |by rewrite Hf4, Hf3, Hf2, Hf1 by (vm_compute; discriminate)|].
  cbv beta iota.
  destruct (sw_demo_series_runs clock [6; 7; 8; 9; 10] s5 10)
    as (s10 & rows1 & -> & Hids1 & _).
  cbv beta iota.
  destruct (sw_demo_series_runs clock (seqZ 11 10) s10
              (10 + 2 * length [6; 7; 8; 9; 10]))
    as (s20 & rows2 & -> & Hids2 & _).
  exists (rows1 ++ rows2). split; [reflexivity|].
  by rewrite fmap_app, Hids1, Hids2.
Qed.

(** ** The throttling limiter on binary64 *)







(** ** [demo_scenario] of the throttling limiter on binary64 *)

Lemma thf_demo_round_fresh (m : float) (msgs : gmap string float)
    (clock : nat → float) (reads : nat) (message_id : Z) :
  let user_id := message_id `mod` 5 + 1 in
  msgs !! pretty user_id = None →
  THF.demo_round (THF.mk m msgs) clock reads message_id
  = (THF.mk m (<[pretty user_id := clock (S reads)]> msgs),
     S (S (S reads)),
     THF.mk_row message_id user_id THF.Sent).
Proof.
  intros user_id Hnone. unfold THF.demo_round. fold user_id.
  unfold THF.record_message, THF.can_send_message. simpl. rewrite Hnone.
  unfold THF.time_until_next_allowed. simpl.
  rewrite lookup_insert_eq. simpl. by rewrite lookup_insert_eq.
Qed.

Lemma thf_demo_round_seen (m : float) (msgs : gmap string float)
    (clock : nat → float) (reads : nat) (message_id : Z) (last_time : float) :
  let user_id := message_id `mod` 5 + 1 in
  msgs !! pretty user_id = Some last_time →
  THF.demo_round (THF.mk m msgs) clock reads message_id
  = if (m <=? clock reads - last_time)%float
    then (THF.mk m (<[pretty user_id := clock (S reads)]> msgs),
          S (S (S reads)),
          THF.mk_row message_id user_id THF.Sent)
    else (THF.mk m msgs, S (S reads),
          THF.mk_row message_id user_id
            (THF.Refused
               (THF.py_max (m - (clock (S reads) - last_time)) 0))).
Proof.
  intros user_id Hsome. unfold THF.demo_round. fold user_id.
  unfold THF.record_message, THF.can_send_message. simpl. rewrite Hsome.
  destruct (m <=? clock reads - last_time)%float.
  - unfold THF.time_until_next_allowed. simpl.
    rewrite lookup_insert_eq. simpl. by rewrite lookup_insert_eq.
  - unfold THF.time_until_next_allowed. simpl. rewrite Hsome. simpl.
    by rewrite Hsome.
Qed.

Lemma thf_demo_series_rows (clock : nat → float) (message_ids : list Z) :
  ∀ (limiter : THF.t) (reads : nat),
    THF.row_message <$> snd (THF.demo_series limiter clock reads message_ids)
    = message_ids.
Proof.
  induction message_ids as [|message_id rest IH]; intros limiter reads;
    [reflexivity|].
  cbn [THF.demo_series].
  destruct (THF.demo_round limiter clock reads message_id)
    as [[limiter1 reads1] r] eqn:Hround.
  specialize (IH limiter1 reads1).
  destruct (THF.demo_series limiter1 clock reads1 rest)
    as [[limiter2 reads2] rows].
  cbn [snd] in *. rewrite fmap_cons, IH. f_equal.
  unfold THF.demo_round in Hround.
  destruct (THF.record_message _ _ _ _), (THF.time_until_next_allowed _ _ _).
  by injection Hround as _ _ <-.
Qed.

Lemma thf_demo_series_cons (limiter : THF.t) (clock : nat → float)
    (reads : nat) (message_id : Z) (rest : list Z) :
  THF.demo_series limiter clock reads (message_id :: rest)
  = let '(limiter, reads, r) :=
      THF.demo_round limiter clock reads message_id in
    let '(limiter, reads, rows) := THF.demo_series limiter clock reads rest in
    (limiter, reads, r :: rows).
Proof. reflexivity. Qed.

(** X21.  Whatever the clock readings are, the throttling [demo_scenario]
    accepts the messages 1 to 5 (the first messages of the users 2, 3, 4, 5
    and 1), each taking three clock readings.  Message 6, for user 2 again,
    is then accepted exactly when [clock 15 - clock 1 >= 10.0] as binary64
    computes it, reading 1 being the timestamp stored for user 2; when it is
    refused the wait printed is [max(10.0 - (clock 16 - clock 1), 0.0)].  The
    rows of the messages 7 to 20 follow. *)
Theorem throttling_demo_first_messages (clock : nat → float) :
  ∃ rows,
    THF.demo_scenario clock
    = [THF.mk_row 1 2 THF.Sent; THF.mk_row 2 3 THF.Sent;
       THF.mk_row 3 4 THF.Sent; THF.mk_row 4 5 THF.Sent;
       THF.mk_row 5 1 THF.Sent;
       THF.mk_row 6 2
         (if (10 <=? clock 15%nat - clock 1%nat)%float then THF.Sent
          else THF.Refused
                 (THF.py_max (10 - (clock 16%nat - clock 1%nat)) 0))]
      ++ rows
    ∧ THF.row_message <$> rows = seqZ 7 14.
Proof.
  unfold THF.demo_scenario, THF.init. cbv zeta.
  change (seqZ 1 10) with [1; 2; 3; 4; 5; 6; 7; 8; 9; 10].
  do 5 (rewrite thf_demo_series_cons, thf_demo_round_fresh by reflexivity;
        cbv beta iota zeta).
  rewrite thf_demo_series_cons.
  erewrite thf_demo_round_seen; [|reflexivity].
  destruct (10 <=? clock 15%nat - clock 1%nat)%float; cbv beta iota zeta;
    match goal with
    | |- context [THF.demo_series ?s clock ?k [7; 8; 9; 10]] =>
        pose proof (thf_demo_series_rows clock [7; 8; 9; 10] s k) as Hids1;
        destruct (THF.demo_series s clock k [7; 8; 9; 10])
          as [[limiter1 reads1] rows1]
    end;
    pose proof (thf_demo_series_rows clock (seqZ 11 10) limiter1 reads1)
      as Hids2;
    destruct (THF.demo_series limiter1 clock reads1 (seqZ 11 10))
      as [[limiter2 reads2] rows2];
    cbn [snd] in *;
    exists (rows1 ++ rows2); (split; [reflexivity|]);
    by rewrite fmap_app, Hids1, Hids2.
Qed.
